(** * LemmyTelegramBot: the feed-to-channel pipeline of [main.py]

    A shallow embedding of the markup normalizer ([html_minify]), the image
    locator ([Scraper.find_image]), the dedup store ([Scraper.filter_posts],
    [record_posts], [refuse]), the delivery adapter ([send_post]) and one
    tick ([tick]), followed by the properties of the specification.

    Python strings are modelled as [string]; a character stands for a code
    point below 256.  Exceptions are modelled by the [result] type. *)

From Stdlib Require Import List String Ascii Bool Arith Lia DecimalString.
Import ListNotations.
Open Scope string_scope.
Set Warnings "-register-all,-notation-for-abbreviation".

(** ** Exceptions *)

Inductive exn : Type :=
| IndexError        (* list index out of range *)
| HTTPFailed        (* class HTTPFailed(Exception) *)
| ParseFeedFailed   (* class ParseFeedFailed(Exception) *)
| KeyError          (* a feed item without an expected field *)
| MissingSchema     (* requests: the URL has no scheme *)
| TransportError.   (* any other failure of an external call *)

Inductive result (A : Type) : Type :=
| Ok (a : A)
| Raise (e : exn).
Arguments Ok {A} a.
Arguments Raise {A} e.

Definition bind {A B : Type} (r : result A) (k : A -> result B) : result B :=
  match r with
  | Ok a => k a
  | Raise e => Raise e
  end.

Notation "x <- r ;; k" := (bind r (fun x => k))
  (at level 61, r at next level, right associativity).

(** ** Python string operations *)

Module PyStr.

(** [str.isspace] on one character (code points below 256). *)
Definition is_space (c : ascii) : bool :=
  let n := nat_of_ascii c in
  (((9 <=? n) && (n <=? 13)) || ((28 <=? n) && (n <=? 32))
   || (n =? 133) || (n =? 160))%nat.

Fixpoint lstrip (s : string) : string :=
  match s with
  | EmptyString => EmptyString
  | String c s' => if is_space c then lstrip s' else s
  end.

Fixpoint rstrip (s : string) : string :=
  match s with
  | EmptyString => EmptyString
  | String c s' =>
      match rstrip s' with
      | EmptyString => if is_space c then EmptyString else String c EmptyString
      | r => String c r
      end
  end.

(** [s.strip()] *)
Definition strip (s : string) : string := rstrip (lstrip s).

(** [needle in hay] *)
Fixpoint contains (needle hay : string) : bool :=
  prefix needle hay ||
  match hay with
  | EmptyString => false
  | String _ hay' => contains needle hay'
  end.

(** [s.endswith(suffix)], used to phrase the specification. *)
Fixpoint endswith (s suffix : string) : bool :=
  (s =? suffix) ||
  match s with
  | EmptyString => false
  | String _ s' => endswith s' suffix
  end.

(** Line feed, the one-character string ["\n"]. *)
Definition LF : string := String (ascii_of_nat 10) EmptyString.

End PyStr.

(** ** The document tree of BeautifulSoup *)

Module Html.
Import PyStr.

Definition attrs := list (string * string).

(** A [Tag] or a [NavigableString].  Every string of the tree is a plain
    [NavigableString]: comments, declarations and the strings of [script],
    [style], [template] and ruby text elements are outside the model. *)
Inductive node : Type :=
| Text (s : string)
| Tag (name : string) (a : attrs) (children : list node).

(** The contents of the [BeautifulSoup] object. *)
Definition soup := list node.

(** [element.text]: the strings below the element, joined; a string is its
    own text. *)
Fixpoint text (n : node) : string :=
  match n with
  | Text s => s
  | Tag _ _ ch => String.concat EmptyString (map text ch)
  end.

(** [tag.text] for a tag with contents [ch]. *)
Definition text_of (ch : list node) : string :=
  String.concat EmptyString (map text ch).

(** [soup.find_all(True)]: every tag, in document order. *)
Fixpoint all_tags (n : node) : list node :=
  match n with
  | Text _ => []
  | Tag _ _ ch => n :: flat_map all_tags ch
  end.

Definition find_all_tags (doc : soup) : list node := flat_map all_tags doc.

(** [doc.find_all(name)] *)
Definition find_all (nm : string) (doc : soup) : list node :=
  filter (fun t => match t with Tag n _ _ => n =? nm | Text _ => false end)
         (find_all_tags doc).

(** [key in element.attrs] and [element.attrs[key]] *)
Fixpoint attr_get (key : string) (a : attrs) : option string :=
  match a with
  | [] => None
  | (k, v) :: a' => if k =? key then Some v else attr_get key a'
  end.

(** The tag names the rewrite leaves alone: ["a", "b", "strong", "i", "em"]. *)
Definition preserved : list string := ["a"; "b"; "strong"; "i"; "em"].

Definition mem (x : string) (l : list string) : bool :=
  existsb (String.eqb x) l.

(** One iteration of the body of [for tag in soup.find_all(True)[::-1]],
    for a tag named [nm] whose contents are [child] when it is visited.
    The value is the node that stands in the tag's place afterwards. *)
Definition visit (nm : string) (a : attrs) (child : list node) : result node :=
  if nm =? "br" then Ok (Text LF)
  else if nm =? "p" then Ok (Text (LF ++ strip (text_of child)))
  else if nm =? "li" then
    match child with
    | [] => Raise IndexError
    | c0 :: _ => Ok (Text (strip (text_of child) ++ strip (text c0)))
    end
  else if mem nm preserved then Ok (Tag nm a child)
  else
    match child with
    | [] => Ok (Text (strip (text_of child)))
    | [c0] => Ok c0
    | _ => Ok (Tag nm a child)
    end.

(** One full pass over a subtree.  The tags are visited in reverse document
    order: the last child's subtree first, the tag itself after all of its
    descendants. *)
Fixpoint pass_node (n : node) : result node :=
  match n with
  | Text s => Ok (Text s)
  | Tag nm a ch =>
      ch' <- (fix pass_list (l : list node) : result (list node) :=
                match l with
                | [] => Ok []
                | c :: r =>
                    r' <- pass_list r ;;
                    c' <- pass_node c ;;
                    Ok (c' :: r')
                end) ch ;;
      visit nm a ch'
  end.

Fixpoint pass (doc : soup) : result soup :=
  match doc with
  | [] => Ok []
  | c :: r =>
      r' <- pass r ;;
      c' <- pass_node c ;;
      Ok (c' :: r')
  end.

Section Minify.

(** The two library calls around the rewrite:
    [parse s] is [BeautifulSoup(minify_html.minify(s), "html.parser")],
    [decode doc] is [str(soup)]. *)
Variable parse : string -> soup.
Variable decode : soup -> string.

(** [for _ in range(n)]: a pass, then [break] when the serialized length
    did not change. *)
Fixpoint rewrite_loop (n : nat) (doc : soup) : result soup :=
  match n with
  | O => Ok doc
  | S n' =>
      doc' <- pass doc ;;
      if (String.length (decode doc') =? String.length (decode doc))%nat
      then Ok doc'
      else rewrite_loop n' doc'
  end.

(** The tree [html_minify] serializes at its end. *)
Definition minified (html_doc : string) : result soup :=
  rewrite_loop (String.length html_doc) (parse html_doc).

Definition html_minify (html_doc : string) : result string :=
  doc <- minified html_doc ;;
  Ok (decode doc).

End Minify.

End Html.

(** ** A reference model of the parser and the serializer

    [bs_decode] follows [Tag.decode] with the default (minimal) formatter;
    [bs_parse] follows [BeautifulSoup(s, "html.parser")] on documents made of
    elements, attributes and character data (no comments, declarations or
    numeric character references).  It does not model
    [minify_html.minify], which [html_minify] applies before it parses and
    which drops optional end tags and white space between elements: for a
    document that this step rewrites, the tree the code parses is the tree
    of the rewritten text.  The properties below are stated for any parser;
    [bs_parse] only supplies the trees of the sample documents, which hold
    no white space between elements. *)

Module BS4.
Import PyStr Html.

Definition DQ : string := String (ascii_of_nat 34) EmptyString.
Definition SQ : string := "'".

(** [HTMLTreeBuilder.empty_element_tags] *)
Definition void_tags : list string :=
  ["area"; "base"; "br"; "col"; "embed"; "hr"; "img"; "input"; "keygen";
   "link"; "menuitem"; "meta"; "param"; "source"; "track"; "wbr";
   "basefont"; "bgsound"; "command"; "frame"; "image"; "isindex"; "nextid";
   "spacer"].

(** [EntitySubstitution.substitute_xml] *)
Fixpoint escape (s : string) : string :=
  match s with
  | EmptyString => EmptyString
  | String c s' =>
      (if (c =? "&")%char then "&amp;"
       else if (c =? "<")%char then "&lt;"
       else if (c =? ">")%char then "&gt;"
       else String c EmptyString) ++ escape s'
  end.

Fixpoint replace_dq (s : string) : string :=
  match s with
  | EmptyString => EmptyString
  | String c s' =>
      (if (c =? ascii_of_nat 34)%char then "&quot;" else String c EmptyString)
        ++ replace_dq s'
  end.

(** [EntitySubstitution.quoted_attribute_value] *)
Definition quoted (v : string) : string :=
  if contains DQ v then
    if contains SQ v then DQ ++ replace_dq v ++ DQ else SQ ++ v ++ SQ
  else DQ ++ v ++ DQ.

(** [sorted(tag.attrs.items())] *)
Fixpoint insert_attr (kv : string * string) (a : attrs) : attrs :=
  match a with
  | [] => [kv]
  | kv' :: a' =>
      if String.leb (fst kv) (fst kv') then kv :: a
      else kv' :: insert_attr kv a'
  end.

Definition sorted_attrs (a : attrs) : attrs := fold_right insert_attr [] a.

Definition decode_attrs (a : attrs) : string :=
  String.concat EmptyString
    (map (fun kv => " " ++ fst kv ++ "=" ++ quoted (escape (snd kv)))
         (sorted_attrs a)).

Fixpoint decode_node (n : node) : string :=
  match n with
  | Text s => escape s
  | Tag nm a ch =>
      match ch with
      | [] =>
          if mem nm void_tags then "<" ++ nm ++ decode_attrs a ++ "/>"
          else "<" ++ nm ++ decode_attrs a ++ "></" ++ nm ++ ">"
      | _ =>
          "<" ++ nm ++ decode_attrs a ++ ">"
            ++ String.concat EmptyString (map decode_node ch) ++ "</" ++ nm ++ ">"
      end
  end.

(** [str(soup)] *)
Definition bs_decode (doc : soup) : string :=
  String.concat EmptyString (map decode_node doc).

(** *** Lexing *)

Inductive token : Type :=
| TData (s : string)
| TStart (nm : string) (a : attrs) (closed : bool)
| TEnd (nm : string).

Definition is_alpha (c : ascii) : bool :=
  let n := nat_of_ascii c in
  (((65 <=? n) && (n <=? 90)) || ((97 <=? n) && (n <=? 122)))%nat.

Definition lower_char (c : ascii) : ascii :=
  let n := nat_of_ascii c in
  if ((65 <=? n) && (n <=? 90))%nat then ascii_of_nat (n + 32) else c.

Fixpoint lower (s : string) : string :=
  match s with
  | EmptyString => EmptyString
  | String c s' => String (lower_char c) (lower s')
  end.

(** The ASCII white space of HTML: space, tab, LF, FF, CR. *)
Definition is_ws (c : ascii) : bool :=
  let n := nat_of_ascii c in
  ((n =? 32) || (n =? 9) || (n =? 10) || (n =? 12) || (n =? 13))%nat.

Fixpoint span_until (stop : ascii -> bool) (s : string) : string * string :=
  match s with
  | EmptyString => (EmptyString, EmptyString)
  | String c s' =>
      if stop c then (EmptyString, s)
      else let (p, r) := span_until stop s' in (String c p, r)
  end.

Definition drop1 (s : string) : string :=
  match s with
  | EmptyString => EmptyString
  | String _ s' => s'
  end.

Fixpoint skip_ws (s : string) : string :=
  match s with
  | EmptyString => EmptyString
  | String c s' => if is_ws c then skip_ws s' else s
  end.

(** A ["<"] opens markup when a letter or ["/"] follows it. *)
Definition starts_markup (s : string) : bool :=
  match s with
  | String c (String d _) =>
      (c =? "<")%char && (is_alpha d || (d =? "/")%char)
  | _ => false
  end.

Fixpoint scan_data (s : string) : string * string :=
  match s with
  | EmptyString => (EmptyString, EmptyString)
  | String c s' =>
      if starts_markup s then (EmptyString, s)
      else let (d, r) := scan_data s' in (String c d, r)
  end.

Definition entity_at (s : string) : option (ascii * nat) :=
  if prefix "amp;" s then Some ("&"%char, 4)
  else if prefix "lt;" s then Some ("<"%char, 3)
  else if prefix "gt;" s then Some (">"%char, 3)
  else if prefix "quot;" s then Some (ascii_of_nat 34, 5)
  else if prefix "apos;" s then Some ("'"%char, 5)
  else if prefix "#39;" s then Some ("'"%char, 4)
  else None.

Fixpoint unescape_from (skip : nat) (s : string) : string :=
  match s with
  | EmptyString => EmptyString
  | String c s' =>
      match skip with
      | S k => unescape_from k s'
      | O =>
          if (c =? "&")%char then
            match entity_at s' with
            | Some (ch, len) => String ch (unescape_from len s')
            | None => String c (unescape_from 0 s')
            end
          else String c (unescape_from 0 s')
      end
  end.

Definition unescape (s : string) : string := unescape_from 0 s.

(** [attr_dict[key] = value]: a later duplicate overwrites the value. *)
Fixpoint attr_set (k v : string) (a : attrs) : attrs :=
  match a with
  | [] => [(k, v)]
  | (k', v') :: a' =>
      if k' =? k then (k, v) :: a' else (k', v') :: attr_set k v a'
  end.

Definition attr_value (s : string) : string * string :=
  match s with
  | String q r =>
      if (q =? ascii_of_nat 34)%char || (q =? "'")%char then
        let (v, r') := span_until (Ascii.eqb q) r in (v, drop1 r')
      else span_until (fun c => is_ws c || (c =? ">")%char) s
  | EmptyString => (EmptyString, EmptyString)
  end.

(** The attributes of a start tag, up to and including its [">"]; the
    boolean tells a tag closed by ["/>"]. *)
Fixpoint lex_attrs (fuel : nat) (acc : attrs) (s : string)
  : attrs * bool * string :=
  match fuel with
  | O => (acc, false, EmptyString)
  | S f =>
      match skip_ws s with
      | EmptyString => (acc, false, EmptyString)
      | String c r as s1 =>
          if (c =? ">")%char then (acc, false, r)
          else if (c =? "/")%char then
            match r with
            | String d r' =>
                if (d =? ">")%char then (acc, true, r') else lex_attrs f acc r
            | EmptyString => (acc, true, EmptyString)
            end
          else
            let (k, r1) :=
              span_until (fun x => is_ws x || (x =? "=")%char
                                   || (x =? ">")%char || (x =? "/")%char) r in
            let key := lower (String c k) in
            match skip_ws r1 with
            | String e r2 =>
                if (e =? "=")%char then
                  let (v, r3) := attr_value (skip_ws r2) in
                  lex_attrs f (attr_set key (unescape v) acc) r3
                else lex_attrs f (attr_set key EmptyString acc) r1
            | EmptyString => (attr_set key EmptyString acc, false, EmptyString)
            end
      end
  end.

Fixpoint lex (fuel : nat) (s : string) : list token :=
  match fuel with
  | O => []
  | S f =>
      match s with
      | EmptyString => []
      | String _ r =>
          if starts_markup s then
            match r with
            | String d r' =>
                if (d =? "/")%char then
                  let (nm, r1) := span_until (Ascii.eqb ">") r' in
                  TEnd (lower (strip nm)) :: lex f (drop1 r1)
                else
                  let (nm, r1) :=
                    span_until (fun x => is_ws x || (x =? ">")%char
                                         || (x =? "/")%char) r in
                  let '(a, closed, r2) := lex_attrs f [] r1 in
                  TStart (lower nm) a closed :: lex f r2
            | EmptyString => []
            end
          else
            let (d, r1) := scan_data s in
            TData (unescape d) :: lex f r1
      end
  end.

(** *** Tree construction *)

(** An open element: its name, attributes and the children read so far,
    last first. *)
Definition frame : Type := string * attrs * list node.

Definition add_child (n : node) (stack : list frame) : list frame :=
  match stack with
  | (nm, a, ch) :: rest => (nm, a, n :: ch) :: rest
  | [] => []
  end.

Definition pop (stack : list frame) : list frame :=
  match stack with
  | (nm, a, ch) :: rest => add_child (Tag nm a (rev ch)) rest
  | [] => []
  end.

(** The distance from the top of the stack to the most recent open element
    named [nm]; the last frame is the document and never matches. *)
Fixpoint open_index (nm : string) (stack : list frame) : option nat :=
  match stack with
  | [] | [_] => None
  | (n, _, _) :: rest =>
      if n =? nm then Some 0 else option_map S (open_index nm rest)
  end.

Fixpoint all_ws (s : string) : bool :=
  match s with
  | EmptyString => true
  | String c s' => is_ws c && all_ws s'
  end.

(** [endData]: a string of white space only becomes one line feed or one
    space, except inside [pre] and [textarea]. *)
Definition end_data (d : string) (stack : list frame) : string :=
  if all_ws d
     && negb (existsb (fun f => mem (fst (fst f)) ["pre"; "textarea"]) stack)
  then if contains LF d then LF else " "
  else d.

Fixpoint build (toks : list token) (stack : list frame) : list frame :=
  match toks with
  | [] => stack
  | TData d :: r => build r (add_child (Text (end_data d stack)) stack)
  | TStart nm a closed :: r =>
      if closed || mem nm void_tags
      then build r (add_child (Tag nm a []) stack)
      else build r ((nm, a, []) :: stack)
  | TEnd nm :: r =>
      match open_index nm stack with
      | Some k => build r (Nat.iter (S k) pop stack)
      | None => build r stack
      end
  end.

Definition bs_parse (s : string) : soup :=
  let stack := build (lex (S (String.length s)) s) [("[document]", [], [])] in
  match Nat.iter (List.length stack - 1) pop stack with
  | (_, _, ch) :: _ => rev ch
  | [] => []
  end.

End BS4.

(** ** Regular expressions, as far as [find_image] uses [re.search] *)

Module Re.
Import PyStr.

Inductive regex : Type :=
| Eps
| Chr (c : ascii)
| Seq (r1 r2 : regex)
| Alt (r1 r2 : regex)
| Eol.                 (* [$] *)

(** [matches r s k]: [r] matches a prefix of [s] and [k] accepts the rest.
    Without [re.MULTILINE], [$] matches at the end of the string and just
    before a line feed that ends the string. *)
Fixpoint matches (r : regex) (s : string) (k : string -> bool) : bool :=
  match r with
  | Eps => k s
  | Chr c =>
      match s with
      | String d s' => (c =? d)%char && k s'
      | EmptyString => false
      end
  | Seq r1 r2 => matches r1 s (fun s' => matches r2 s' k)
  | Alt r1 r2 => matches r1 s k || matches r2 s k
  | Eol => ((s =? EmptyString) || (s =? LF)) && k s
  end.

(** [re.search(r, s)] finds a match: some position of [s] starts one. *)
Fixpoint search (r : regex) (s : string) : bool :=
  matches r s (fun _ => true) ||
  match s with
  | EmptyString => false
  | String _ s' => search r s'
  end.

Fixpoint lit (w : string) : regex :=
  match w with
  | EmptyString => Eps
  | String c w' => Seq (Chr c) (lit w')
  end.

Definition image_extensions : list string :=
  ["jpg"; "jpeg"; "png"; "gif"; "webp"].

(** [r"\.(jpg|jpeg|png|gif|webp)$"] *)
Definition image_pattern : regex :=
  Seq (Chr ".")
      (Seq (Alt (lit "jpg") (Alt (lit "jpeg") (Alt (lit "png")
                (Alt (lit "gif") (lit "webp")))))
           Eol).

End Re.

(** ** The scraper *)

Module Scraper.
Import PyStr Html.

(** A post is a dict with the keys guid, title, link, description and
    comments, and possibly the key image.  [image] is [None] when the key is
    absent, [Some None] when the key holds Python's [None]. *)
Record Post : Type := {
  guid : string;
  title : string;
  link : string;
  description : string;
  comments : string;
  image : option (option string)
}.

Definition set_description (post : Post) (d : string) : Post :=
  {| guid := guid post; title := title post; link := link post;
     description := d; comments := comments post; image := image post |}.

Definition set_image (post : Post) (img : option string) : Post :=
  {| guid := guid post; title := title post; link := link post;
     description := description post; comments := comments post;
     image := Some img |}.

(** [ScraperState]: the dict with the one key visited. *)
Record ScraperState : Type := { visited : list string }.

(** [l[-n:]] *)
Definition last_n {A : Type} (n : nat) (l : list A) : list A :=
  skipn (List.length l - n) l.

(** [l.remove(x)] for an [x] that occurs in [l]. *)
Fixpoint remove_first (x : string) (l : list string) : list string :=
  match l with
  | [] => []
  | y :: l' => if y =? x then l' else y :: remove_first x l'
  end.

Definition filter_posts (st : ScraperState) (posts : list Post) : list Post :=
  filter (fun post => negb (mem (guid post) (visited st))) posts.

Definition record_posts (st : ScraperState) (posts : list Post)
  : ScraperState :=
  {| visited := last_n 500 (visited st ++ map guid posts)%list |}.

Definition refuse (st : ScraperState) (post : Post) : ScraperState :=
  if mem (guid post) (visited st)
  then {| visited := remove_first (guid post) (visited st) |}
  else st.

(** An item of the parsed feed; a field the item lacks is [None]. *)
Record Entry : Type := {
  e_id : option string;
  e_title : option string;
  e_link : option string;
  e_summary : option string;
  e_comments : option string
}.

Definition item {A : Type} (field : option A) : result A :=
  match field with
  | Some v => Ok v
  | None => Raise KeyError
  end.

Definition post_of_entry (e : Entry) : result Post :=
  g <- item (e_id e) ;;
  t <- item (e_title e) ;;
  l <- item (e_link e) ;;
  d <- item (e_summary e) ;;
  c <- item (e_comments e) ;;
  Ok {| guid := g; title := t; link := l; description := d; comments := c;
        image := None |}.

(** A list comprehension or a [for] loop whose body may raise. *)
Fixpoint for_each {A B : Type} (f : A -> result B) (l : list A)
  : result (list B) :=
  match l with
  | [] => Ok []
  | x :: l' =>
      y <- f x ;;
      ys <- for_each f l' ;;
      Ok (y :: ys)
  end.

(** [fetch_new_posts], given what [requests.get] answered (status code and
    body, or an exception) and the feed parser. *)
Definition fetch_new_posts (response : result (nat * string))
    (feedparser_parse : string -> result (list Entry)) : result (list Post) :=
  match response with
  | Raise _ => Raise HTTPFailed
  | Ok (status_code, body) =>
      if negb (status_code =? 200)%nat then Raise HTTPFailed
      else
        match feedparser_parse body with
        | Raise _ => Raise ParseFeedFailed
        | Ok entries => for_each post_of_entry entries
        end
  end.

(** The loop of [find_image] over [doc.find_all("a")]. *)
Fixpoint first_image (elements : list node) : option string :=
  match elements with
  | [] => None
  | Text _ :: rest => first_image rest
  | Tag _ a _ :: rest =>
      match attr_get "href" a with
      | None => first_image rest
      | Some href =>
          if Re.search Re.image_pattern href || contains "imgur" href
          then Some href
          else first_image rest
      end
  end.

Section Pipeline.

(** [parse_html s] is [BeautifulSoup(s, "html.parser")];
    [parse_minified s] is [BeautifulSoup(minify_html.minify(s), "html.parser")];
    [decode doc] is [str(doc)]. *)
Variable parse_html : string -> soup.
Variable parse_minified : string -> soup.
Variable decode : soup -> string.

Definition find_image (post : Post) : option string :=
  first_image (find_all "a" (parse_html (description post))).

(** [new_posts], given the outcome of [fetch_new_posts]; the value is what
    the call returns or raises, and the state it leaves. *)
Definition new_posts (st : ScraperState) (fetched : result (list Post))
  : result (list Post) * ScraperState :=
  match fetched with
  | Raise e => (Raise e, st)
  | Ok posts =>
      let posts := filter_posts st posts in
      let st' := record_posts st posts in
      (cleaned <- for_each
                    (fun data =>
                       d <- html_minify parse_minified decode
                              (description data) ;;
                       Ok (set_description data d))
                    posts ;;
       Ok (map (fun post => set_image post (find_image post)) cleaned),
       st')
  end.

End Pipeline.

End Scraper.

(** ** Delivery and the tick *)

Module Bot.
Import PyStr Html Scraper.

(** The calls that leave the process, in the order they are made. *)
Inductive call : Type :=
| FeedGet (url : string)
| LogSending (post_guid : string)
| ImageGet (url : option string)
| SendMediaGroup (chat_id : string) (photo : string) (caption : string)
| SendMessage (chat_id : string) (body : string)
              (disable_web_page_preview : bool)
| SaveState (file : string) (st : ScraperState).

(** [HTML_MESSAGE.format(title=..., desc=...)] *)
Definition html_message (t d : string) : string :=
  LF ++ "<b>" ++ t ++ "</b>" ++ LF ++ "---" ++ LF ++ d ++ LF ++ LF.

Section Tick.
Local Open Scope list_scope.

Variable parse_html : string -> soup.
Variable parse_minified : string -> soup.
Variable decode : soup -> string.

(** The outside world answers a call according to the calls made so far:
    the feed server, the feed parser, the image host, and the messaging
    endpoint ([true]: the call returned, [false]: it raised). *)
Variable feed_response : list call -> result (nat * string).
Variable feedparser_parse : string -> result (list Entry).
Variable image_response : list call -> string -> result string.
Variable bot_accepts : list call -> call -> bool.

Variable feed_url : string.
Variable chat_id : string.

(** [requests.get(post["image"], timeout=60)]; the library refuses a URL
    that is [None] and raises [MissingSchema]. *)
Definition fetch_image (log : list call) (img : option string)
  : result string :=
  match img with
  | None => Raise MissingSchema
  | Some url => image_response log url
  end.

(** [send_post]: the calls made and the boolean returned.  Every exception
    raised inside the [try] is caught and turned into [False]. *)
Definition send_post (log : list call) (post : Post) : list call * bool :=
  match image post with
  | Some img =>
      let log1 := log ++ [ImageGet img] in
      match fetch_image log img with
      | Raise _ => (log1, false)
      | Ok content =>
          let c := SendMediaGroup chat_id content
                     (html_message (title post) (description post)) in
          (log1 ++ [c], bot_accepts log1 c)
      end
  | None =>
      let c := SendMessage chat_id
                 (html_message (title post) (description post)) true in
      (log ++ [c], bot_accepts log c)
  end.

(** The [for post in posts] loop of [tick]. *)
Fixpoint send_all (log : list call) (st : ScraperState) (posts : list Post)
  : list call * ScraperState :=
  match posts with
  | [] => (log, st)
  | post :: rest =>
      let (log1, result) := send_post (log ++ [LogSending (guid post)]) post in
      send_all log1 (if result then st else refuse st post) rest
  end.

(** What [send_post] returns for each post of that loop, in order. *)
Fixpoint outcomes (log : list call) (posts : list Post)
  : list (Post * bool) :=
  match posts with
  | [] => []
  | post :: rest =>
      let (log1, result) := send_post (log ++ [LogSending (guid post)]) post in
      (post, result) :: outcomes log1 rest
  end.

Definition tick (log : list call) (st : ScraperState)
  : list call * ScraperState :=
  let log1 := log ++ [FeedGet feed_url] in
  match new_posts parse_html parse_minified decode st
          (fetch_new_posts (feed_response log) feedparser_parse) with
  | (Raise _, st1) => (log1, st1)
  | (Ok posts, st1) =>
      let (log2, st2) := send_all log1 st1 posts in
      (log2 ++ [SaveState "scraper.json" st2], st2)
  end.

End Tick.

End Bot.

(** ** Notions used to state the properties *)

Module Notions.
Import PyStr Html Scraper Bot.

(** Some [li] element of the subtree has no children. *)
Fixpoint has_empty_li (n : node) : bool :=
  match n with
  | Text _ => false
  | Tag nm _ ch =>
      ((nm =? "li") && match ch with [] => true | _ => false end)
      || existsb has_empty_li ch
  end.

(** The names whose rule puts a string in the element's place. *)
Definition flattened : list string := ["br"; "p"; "li"].

(** No element of the subtree is flattened. *)
Fixpoint flat_free (n : node) : bool :=
  match n with
  | Text _ => true
  | Tag nm _ ch => negb (mem nm flattened) && forallb flat_free ch
  end.

(** The link targets of the anchors that have one, in document order. *)
Definition hrefs (doc : soup) : list string :=
  flat_map (fun t => match t with
                     | Tag _ a _ =>
                         match attr_get "href" a with
                         | Some h => [h]
                         | None => []
                         end
                     | Text _ => []
                     end)
           (find_all "a" doc).

(** The image test in the words of the specification: the target ends with
    a dot and one of the extensions, or contains ["imgur"]. *)
Definition spec_image_link (href : string) : bool :=
  existsb (fun ext => endswith href ("." ++ ext)) Re.image_extensions
  || contains "imgur" href.

(** The image test of the code: as above, and a line feed may follow the
    extension at the very end. *)
Definition image_link (href : string) : bool :=
  existsb (fun ext => endswith href ("." ++ ext)
                      || endswith href ("." ++ ext ++ LF))
          Re.image_extensions
  || contains "imgur" href.

(** The identifiers the tick announced with [logging.info("Sending post")]. *)
Definition sent_guids (log : list call) : list string :=
  flat_map (fun c => match c with LogSending g => [g] | _ => [] end) log.

(** The states written to the state file. *)
Definition saved_states (log : list call) : list ScraperState :=
  flat_map (fun c => match c with SaveState _ st => [st] | _ => [] end) log.

(** The messages handed to the messaging endpoint. *)
Definition is_send (c : call) : bool :=
  match c with
  | SendMediaGroup _ _ _ | SendMessage _ _ _ => true
  | _ => false
  end.

(** The call hands the post to the channel, in one of the two shapes. *)
Definition delivers (chat_id : string) (post : Post) (c : call) : bool :=
  match c with
  | SendMediaGroup ch _ caption =>
      (ch =? chat_id)
      && (caption =? html_message (title post) (description post))
  | SendMessage ch body preview_off =>
      (ch =? chat_id)
      && (body =? html_message (title post) (description post))
      && preview_off
  | _ => false
  end.

(** The identifiers of the posts whose delivery failed. *)
Definition failed_guids (results : list (Post * bool)) : list string :=
  map (fun r => guid (fst r)) (filter (fun r => negb (snd r)) results).

(** The text-only shape: one message with the template as its body and the
    link preview suppressed. *)
Definition text_only (chat_id : string) (post : Post) : call :=
  SendMessage chat_id (html_message (title post) (description post)) true.

(** A post whose fields are all [g]. *)
Definition plain_post (g : string) : Post :=
  {| guid := g; title := g; link := g; description := g; comments := g;
     image := None |}.

(** The decimal numeral of [n]. *)
Definition numeral (n : nat) : string :=
  NilEmpty.string_of_uint (Nat.to_uint n).

(** [numbered k n]: [n] posts with the distinct identifiers
    [numeral k], ..., [numeral (k + n - 1)]. *)
Definition numbered (k n : nat) : list Post :=
  map (fun i => plain_post (numeral i)) (seq k n).

Definition empty_store : ScraperState := {| visited := [] |}.

(** No string occurs twice in the list. *)
Fixpoint distinct (l : list string) : bool :=
  match l with
  | [] => true
  | x :: l' => negb (mem x l') && distinct l'
  end.

(** *** Sample documents and a sample outside world *)

Definition hello : string := "<p>Hello <b>world</b></p>".


Definition two_spans : string := "<div><span></span><span></span></div>".

(** An anchor whose target has a line feed after the extension. *)
Definition newline_link : string :=
  "<a href='http://example.com/x.png" ++ LF ++ "'>pic</a>".

Definition two_anchors : string :=
  "<a href='http://example.com/x.png'>1</a><a href='http://imgur.com/y'>2</a>".

Definition described (d : string) : Post :=
  set_description (plain_post "g") d.

(** The image host answers every request; the messaging endpoint accepts
    every call. *)
Definition image_ok : list call -> string -> result string :=
  fun _ _ => Ok "bytes".

Definition accepts_all : list call -> call -> bool := fun _ _ => true.

(** The endpoint that rejects the messages about the post titled [t]. *)
Definition rejects_title (t : string) : list call -> call -> bool :=
  fun _ c =>
    match c with
    | SendMediaGroup _ _ caption => negb (contains ("<b>" ++ t ++ "</b>") caption)
    | SendMessage _ body _ => negb (contains ("<b>" ++ t ++ "</b>") body)
    | _ => true
    end.

Definition entry (g d : string) : Entry :=
  {| e_id := Some g; e_title := Some g; e_link := Some g;
     e_summary := Some d; e_comments := Some g |}.

Definition no_image_feed : result (list Post) := Ok [described "hello"].

(** A feed server that answers with status 500. *)
Definition feed_down : list call -> result (nat * string) :=
  fun _ => Ok (500, EmptyString).

Definition feed_up : list call -> result (nat * string) :=
  fun _ => Ok (200, "feed").

Definition no_entries : string -> result (list Entry) := fun _ => Ok [].

(** Two entries, each with an imgur link in its description. *)
Definition two_entries : string -> result (list Entry) :=
  fun _ => Ok [entry "a" "<a href='http://imgur.com/a'>A</a>";
               entry "b" "<a href='http://imgur.com/b'>B</a>"].

Definition seen : ScraperState := {| visited := ["old"] |}.

End Notions.

(** ** Shapes of trees, entries and runs used by the further properties *)

Module Shapes.
Import PyStr Html Scraper Bot Notions.

(** The elements of a subtree, each with its name and attributes, in
    document order. *)
Fixpoint elements (n : node) : list (string * attrs) :=
  match n with
  | Text _ => []
  | Tag nm a ch => (nm, a) :: flat_map elements ch
  end.

(** The elements that are neither a [br], [p] or [li] element nor inside
    one. *)
Fixpoint exposed (n : node) : list (string * attrs) :=
  match n with
  | Text _ => []
  | Tag nm a ch =>
      if mem nm flattened then [] else (nm, a) :: flat_map exposed ch
  end.

(** Nothing is left for a pass to do at an element of the subtree: none is
    a [br], [p] or [li], and every element outside the preserved vocabulary
    has two children or more. *)
Fixpoint settled (n : node) : bool :=
  match n with
  | Text _ => true
  | Tag nm _ ch =>
      negb (mem nm flattened)
      && (mem nm preserved || (2 <=? List.length ch)%nat)
      && forallb settled ch
  end.

(** The subtree is made of strings and preserved-vocabulary elements. *)
Fixpoint all_preserved (n : node) : bool :=
  match n with
  | Text _ => true
  | Tag nm _ ch => mem nm preserved && forallb all_preserved ch
  end.

(** The feed item has the five fields [fetch_new_posts] reads. *)
Definition complete (e : Entry) : bool :=
  match e_id e, e_title e, e_link e, e_summary e, e_comments e with
  | Some _, Some _, Some _, Some _, Some _ => true
  | _, _, _, _, _ => false
  end.

(** The post is the feed item, field by field, without the key image. *)
Definition made_from (post : Post) (e : Entry) : Prop :=
  e_id e = Some (guid post) /\ e_title e = Some (title post)
  /\ e_link e = Some (link post) /\ e_summary e = Some (description post)
  /\ e_comments e = Some (comments post) /\ image post = None.

(** [out] is [post] after [new_posts]: the description normalized, the key
    image set from the normalized description, the rest untouched. *)
Definition cleaned_from (parse_html parse_minified : string -> soup)
    (decode : soup -> string) (out post : Post) : Prop :=
  guid out = guid post /\ title out = title post /\ link out = link post
  /\ comments out = comments post
  /\ html_minify parse_minified decode (description post)
     = Ok (description out)
  /\ image out = Some (find_image parse_html out).

(** [fold_left refuse]: the identifiers of the posts leave the store one
    after the other. *)
Definition refuse_all (st : ScraperState) (posts : list Post)
  : ScraperState :=
  fold_left refuse posts st.

(** The preserved-vocabulary elements that are not inside a [br], [p] or
    [li] element, in document order, each with its name and attributes, and
    with its text when it contains no [br], [p] or [li] element. *)
Fixpoint preserved_at (n : node) : list (string * attrs * option string) :=
  match n with
  | Text _ => []
  | Tag nm a ch =>
      if mem nm flattened then []
      else
        (if mem nm preserved
         then [(nm, a,
                if forallb flat_free ch then Some (text_of ch) else None)]
         else [])
        ++ flat_map preserved_at ch
  end%list.

(** The element [after] is the element [before] with its name and
    attributes, and with its text when the text of [before] is given. *)
Definition survives (before after : string * attrs * option string) : Prop :=
  fst before = fst after
  /\ forall t, snd before = Some t -> snd after = Some t.

(** Adjacent strings joined into one and empty strings dropped, as a
    parser reads a serialized list of nodes back. *)
Fixpoint glue (l : list node) : list node :=
  match l with
  | [] => []
  | Text EmptyString :: r => glue r
  | Text s :: r =>
      match glue r with
      | Text t :: r' => Text (s ++ t) :: r'
      | r' => Text s :: r'
      end
  | n :: r => n :: glue r
  end.

Fixpoint join_node (n : node) : node :=
  match n with
  | Text s => Text s
  | Tag nm a ch => Tag nm a (glue (map join_node ch))
  end.

(** The tree as it is read back from its serialization. *)
Definition join (doc : soup) : soup := glue (map join_node doc).


Definition starts_blank (s : string) : bool :=
  match s with
  | EmptyString => false
  | String c _ => is_space c
  end.



(** *** Samples *)



Definition broken_bold : string := "<b>a<br>b</b>".

Definition bold_then_item : string := "<b>x</b><li></li>".

Definition two_runs : string := "<span>a</span><span>b</span>".

Definition twin_bolds : string :=
  "<div><b>x</b><b>x</b><span><a href='u'><em>t</em></a></span><i>a<br>b</i></div>".

Definition boxed_link : string :=
  "<div><p>read <a href='http://imgur.com/x'>it</a></p><i>now</i></div>".

Definition emphasis : string := "<b>bold <i>and</i></b><a href='u'>link</a>".

(** An item without a title. *)
Definition untitled : Entry :=
  {| e_id := Some "u"; e_title := None; e_link := Some "u";
     e_summary := Some "u"; e_comments := Some "u" |}.

(** Two entries; the description of the second holds an empty list item. *)
Definition poisoned_entries : string -> result (list Entry) :=
  fun _ => Ok [entry "a" "fine"; entry "b" "<ul><li></li></ul>"].

(** Two entries without any link. *)
Definition plain_entries : string -> result (list Entry) :=
  fun _ => Ok [entry "a" "first"; entry "b" "second"].

(** The image host is down. *)
Definition image_down : list call -> string -> result string :=
  fun _ _ => Raise TransportError.

End Shapes.

(** * Properties *)

(** ** The rewrite pass *)

Module HtmlFacts.
Import PyStr Html BS4 Notions.

Section NodeInduction.
Variable P : node -> Prop.
Hypothesis P_text : forall s, P (Text s).
Hypothesis P_tag : forall nm a ch, Forall P ch -> P (Tag nm a ch).

Fixpoint node_induction (n : node) : P n :=
  match n with
  | Text s => P_text s
  | Tag nm a ch =>
      P_tag nm a ch
        ((fix all (l : list node) : Forall P l :=
            match l with
            | [] => Forall_nil P
            | c :: r => Forall_cons c (node_induction c) (all r)
            end) ch)
  end.
End NodeInduction.

Lemma pass_node_tag nm a ch :
  pass_node (Tag nm a ch) = (ch' <- pass ch ;; visit nm a ch').
Proof.
  simpl. unfold bind at 1 3.
  replace ((fix pass_list (l : list node) : result (list node) :=
              match l with
              | [] => Ok []
              | c :: r =>
                  r' <- pass_list r ;; c' <- pass_node c ;; Ok (c' :: r')
              end) ch) with (pass ch); [reflexivity|].
  induction ch as [|c r IH]; simpl; [reflexivity|].
  rewrite IH. reflexivity.
Qed.

Lemma pass_cons c r :
  pass (c :: r) = (r' <- pass r ;; c' <- pass_node c ;; Ok (c' :: r')).
Proof. reflexivity. Qed.

Lemma visit_exn nm a ch e : visit nm a ch = Raise e -> e = IndexError.
Proof.
  unfold visit.
  destruct (nm =? "br"); [discriminate|].
  destruct (nm =? "p"); [discriminate|].
  destruct (nm =? "li").
  - destruct ch; [intros [= <-]; reflexivity | discriminate].
  - destruct (mem nm preserved); [discriminate|].
    destruct ch as [|c0 [|c1 r]]; discriminate.
Qed.

(** The only exception a pass raises is the index error of the [li] rule. *)
Lemma pass_node_exn n : forall e, pass_node n = Raise e -> e = IndexError.
Proof.
  induction n as [s | nm a ch IH] using node_induction; intros e.
  - discriminate.
  - rewrite pass_node_tag.
    assert (Hl : forall e', pass ch = Raise e' -> e' = IndexError).
    { induction IH as [|c r Hc _ IHr]; intros e'; [discriminate|].
      rewrite pass_cons.
      destruct (pass r) as [r'|e1] eqn:Er; simpl.
      - destruct (pass_node c) as [c'|e2] eqn:Ec; simpl; [discriminate|].
        intros [= <-]. apply Hc. reflexivity.
      - intros [= <-]. apply IHr. reflexivity. }
    destruct (pass ch) as [ch'|e1] eqn:E; simpl.
    + apply visit_exn.
    + intros [= <-]. apply Hl. reflexivity.
Qed.

Lemma pass_exn doc : forall e, pass doc = Raise e -> e = IndexError.
Proof.
  induction doc as [|c r IH]; intros e; [discriminate|].
  rewrite pass_cons.
  destruct (pass r) as [r'|e1] eqn:Er; simpl.
  - destruct (pass_node c) as [c'|e2] eqn:Ec; simpl; [discriminate|].
    intros [= <-]. eapply pass_node_exn. eassumption.
  - intros [= <-]. apply IH. reflexivity.
Qed.

Lemma pass_raises_in c r :
  (pass_node c = Raise IndexError \/ pass r = Raise IndexError) ->
  pass (c :: r) = Raise IndexError.
Proof.
  intros H. rewrite pass_cons.
  destruct (pass r) as [r'|e] eqn:Er; simpl.
  - destruct H as [H | H]; [rewrite H; reflexivity | discriminate].
  - f_equal. eapply pass_exn. eassumption.
Qed.

Lemma pass_empty_li_list doc :
  Forall (fun n => has_empty_li n = true -> pass_node n = Raise IndexError)
         doc ->
  existsb has_empty_li doc = true -> pass doc = Raise IndexError.
Proof.
  induction 1 as [|c r Hc _ IH]; simpl; [discriminate|].
  intros H. apply pass_raises_in.
  apply orb_true_iff in H. destruct H as [H | H]; auto.
Qed.

Lemma pass_node_empty_li n :
  has_empty_li n = true -> pass_node n = Raise IndexError.
Proof.
  induction n as [s | nm a ch IH] using node_induction; simpl has_empty_li.
  - discriminate.
  - intros H. rewrite pass_node_tag.
    apply orb_true_iff in H. destruct H as [H | H].
    + apply andb_true_iff in H. destruct H as [Hn Hc].
      apply String.eqb_eq in Hn. subst nm.
      destruct ch; [reflexivity | discriminate].
    + rewrite (pass_empty_li_list ch IH H). reflexivity.
Qed.

Lemma pass_empty_li doc :
  existsb has_empty_li doc = true -> pass doc = Raise IndexError.
Proof.
  apply pass_empty_li_list.
  apply Forall_forall. intros n _. apply pass_node_empty_li.
Qed.

Lemma length_nonempty s : s <> EmptyString -> exists n, String.length s = S n.
Proof. destruct s; [congruence | intros _; eexists; reflexivity]. Qed.

(** A pass that changes nothing ends the loop. *)
Lemma rewrite_loop_stable decode n doc :
  pass doc = Ok doc -> rewrite_loop decode n doc = Ok doc.
Proof.
  intros H. destruct n; simpl; [reflexivity|].
  rewrite H. simpl. rewrite Nat.eqb_refl. reflexivity.
Qed.


(** C3. A document whose parsed tree contains an [li] element without
    children makes [html_minify] raise [IndexError]: the [li] rule reads
    [child[0]] before any test on the number of children. *)
Theorem html_minify_empty_li_raises
    (parse : string -> soup) (decode : soup -> string) (html_doc : string) :
  html_doc <> EmptyString ->
  existsb has_empty_li (parse html_doc) = true ->
  html_minify parse decode html_doc = Raise IndexError.
Proof.
  intros Hne Hli. unfold html_minify, minified.
  destruct (length_nonempty _ Hne) as [n ->]. simpl.
  rewrite (pass_empty_li _ Hli). reflexivity.
Qed.

Lemma html_minify_empty_li_raises_witness :
  bs_parse "<li></li>" = [Tag "li" [] []]
  /\ html_minify bs_parse bs_decode "<li></li>" = Raise IndexError.
Proof.
  split; [reflexivity|].
  apply html_minify_empty_li_raises; [discriminate | reflexivity].
Defined.

Lemma text_of_cons c r : text_of (c :: r) = text c ++ text_of r.
Proof.
  unfold text_of. simpl. destruct (map text r) eqn:E; simpl.
  - clear E. induction (text c) as [|x s IH]; simpl; [reflexivity|].
    f_equal. exact IH.
  - reflexivity.
Qed.

Lemma not_flattened nm :
  mem nm flattened = false ->
  (nm =? "br") = false /\ (nm =? "p") = false /\ (nm =? "li") = false.
Proof.
  unfold mem, flattened. simpl.
  destruct (nm =? "br"), (nm =? "p"), (nm =? "li"); simpl;
    intros H; try discriminate; auto.
Qed.

Lemma visit_not_flattened nm a ch :
  mem nm flattened = false ->
  visit nm a ch =
    if mem nm preserved then Ok (Tag nm a ch)
    else match ch with
         | [] => Ok (Text EmptyString)
         | [c0] => Ok c0
         | _ => Ok (Tag nm a ch)
         end.
Proof.
  intros H. destruct (not_flattened nm H) as (Hbr & Hp & Hli).
  unfold visit. rewrite Hbr, Hp, Hli. destruct ch; reflexivity.
Qed.

(** On a subtree without [br], [p] and [li] a pass cannot fail, and it
    keeps the text. *)
Lemma pass_flat_free_list ch :
  Forall (fun n => flat_free n = true ->
            exists n', pass_node n = Ok n' /\ text n' = text n
                       /\ flat_free n' = true) ch ->
  forallb flat_free ch = true ->
  exists ch', pass ch = Ok ch' /\ text_of ch' = text_of ch
              /\ forallb flat_free ch' = true.
Proof.
  induction 1 as [|c r Hc _ IH]; simpl; intros H.
  - exists []. auto.
  - apply andb_true_iff in H. destruct H as [H1 H2].
    destruct (Hc H1) as (c' & Ec & Tc & Fc).
    destruct (IH H2) as (r' & Er & Tr & Fr).
    exists (c' :: r'). rewrite Er, Ec. simpl.
    rewrite !text_of_cons, Tc, Tr, Fc, Fr. auto.
Qed.

Lemma pass_node_flat_free n :
  flat_free n = true ->
  exists n', pass_node n = Ok n' /\ text n' = text n /\ flat_free n' = true.
Proof.
  induction n as [s | nm a ch IH] using node_induction; intros H.
  - exists (Text s). auto.
  - simpl in H. apply andb_true_iff in H. destruct H as [Hn Hc].
    apply negb_true_iff in Hn.
    destruct (pass_flat_free_list ch IH Hc) as (ch' & E & T & F).
    rewrite pass_node_tag, E. unfold bind.
    rewrite (visit_not_flattened _ _ _ Hn).
    change (text (Tag nm a ch)) with (text_of ch). rewrite <- T.
    destruct (mem nm preserved).
    + eexists. split; [reflexivity|]. simpl. rewrite Hn, F. auto.
    + destruct ch' as [|c0 [|c1 r]].
      * eexists. split; [reflexivity|]. auto.
      * exists c0. split; [reflexivity|]. simpl in F.
        rewrite andb_true_r in F. split; [|exact F].
        rewrite text_of_cons. unfold text_of. simpl.
        clear. induction (text c0); simpl; congruence.
      * eexists. split; [reflexivity|]. simpl flat_free. rewrite Hn.
        split; [reflexivity|]. exact F.
Qed.

Lemma pass_flat_free ch :
  forallb flat_free ch = true ->
  exists ch', pass ch = Ok ch' /\ text_of ch' = text_of ch
              /\ forallb flat_free ch' = true.
Proof.
  apply pass_flat_free_list. apply Forall_forall.
  intros n _. apply pass_node_flat_free.
Qed.

(** C4, refuted as stated: [<div><span></span><span></span></div>] is
    normalized to [<div></div>], and [<div></div>] to the empty string. *)
Lemma html_minify_not_idempotent :
  bs_parse two_spans = [Tag "div" [] [Tag "span" [] []; Tag "span" [] []]]
  /\ minified bs_parse bs_decode two_spans
     = Ok [Tag "div" [] [Text EmptyString; Text EmptyString]]
  /\ html_minify bs_parse bs_decode two_spans = Ok "<div></div>"
  /\ bs_parse "<div></div>" = [Tag "div" [] []]
  /\ html_minify bs_parse bs_decode "<div></div>" = Ok EmptyString.
Proof. repeat split; reflexivity. Qed.

Lemma flat_free_tag nm a ch :
  flat_free (Tag nm a ch) = negb (mem nm flattened) && forallb flat_free ch.
Proof. reflexivity. Qed.

Lemma visit_flat nm a ch n' :
  forallb flat_free ch = true -> visit nm a ch = Ok n' -> flat_free n' = true.
Proof.
  intros F. unfold visit.
  destruct (nm =? "br") eqn:Hbr; [intros [= <-]; reflexivity|].
  destruct (nm =? "p") eqn:Hp; [intros [= <-]; reflexivity|].
  destruct (nm =? "li") eqn:Hli.
  { destruct ch; [discriminate | intros [= <-]; reflexivity]. }
  assert (Hf : mem nm flattened = false).
  { unfold mem, flattened. simpl. rewrite Hbr, Hp, Hli. reflexivity. }
  destruct (mem nm preserved).
  - intros [= <-]. rewrite flat_free_tag, Hf, F. reflexivity.
  - destruct ch as [|c0 [|c1 r]]; intros [= <-].
    + reflexivity.
    + simpl in F. rewrite andb_true_r in F. exact F.
    + rewrite flat_free_tag, Hf. exact F.
Qed.

(** A pass raises only at an [li] without children; when it returns, no
    [br], [p] or [li] element is left. *)
Lemma pass_returns_list ch :
  Forall (fun n => has_empty_li n = false ->
            exists n', pass_node n = Ok n' /\ flat_free n' = true) ch ->
  existsb has_empty_li ch = false ->
  exists ch', pass ch = Ok ch' /\ forallb flat_free ch' = true
              /\ (ch' = [] -> ch = []).
Proof.
  induction 1 as [|c r Hc _ IH]; simpl; intros H.
  - exists []. auto.
  - apply orb_false_iff in H. destruct H as [H1 H2].
    destruct (Hc H1) as (c' & Ec & Fc).
    destruct (IH H2) as (r' & Er & Fr & _).
    exists (c' :: r'). rewrite Er, Ec. simpl. rewrite Fc, Fr.
    repeat split. discriminate.
Qed.

Lemma pass_node_returns n :
  has_empty_li n = false ->
  exists n', pass_node n = Ok n' /\ flat_free n' = true.
Proof.
  induction n as [s | nm a ch IH] using node_induction; intros H.
  - exists (Text s). auto.
  - simpl in H. apply orb_false_iff in H. destruct H as [Hn Hc].
    destruct (pass_returns_list ch IH Hc) as (ch' & E & F & Hnil).
    rewrite pass_node_tag, E. unfold bind.
    destruct (visit nm a ch') as [n'|e] eqn:V.
    + exists n'. split; [reflexivity|]. eapply visit_flat; eassumption.
    + exfalso. unfold visit in V.
      destruct (nm =? "br"); [discriminate|].
      destruct (nm =? "p"); [discriminate|].
      destruct (nm =? "li").
      * destruct ch' as [|c0 r]; [|discriminate].
        rewrite (Hnil eq_refl) in Hn. discriminate.
      * destruct (mem nm preserved); [discriminate|].
        destruct ch' as [|c0 [|c1 r]]; discriminate.
Qed.

Lemma pass_returns doc :
  existsb has_empty_li doc = false ->
  exists doc', pass doc = Ok doc' /\ forallb flat_free doc' = true.
Proof.
  intros H.
  destruct (pass_returns_list doc) as (doc' & E & F & _); eauto.
  apply Forall_forall. intros n _. apply pass_node_returns.
Qed.

Lemma rewrite_loop_flat_free decode n : forall doc,
  forallb flat_free doc = true -> exists out, rewrite_loop decode n doc = Ok out.
Proof.
  induction n as [|n IH]; intros doc F; simpl; [eauto|].
  destruct (pass_flat_free doc F) as (doc' & E & _ & F').
  rewrite E. simpl. destruct (_ =? _)%nat; eauto.
Qed.

(** On a document without a childless [li] the normalizer returns. *)
Lemma minified_returns parse decode html_doc :
  existsb has_empty_li (parse html_doc) = false ->
  exists out, minified parse decode html_doc = Ok out.
Proof.
  intros H. unfold minified.
  destruct (String.length html_doc) as [|n]; simpl; [eauto|].
  destruct (pass_returns _ H) as (doc' & E & F). rewrite E. simpl.
  destruct (_ =? _)%nat; [eauto|]. apply rewrite_loop_flat_free. exact F.
Qed.

End HtmlFacts.

(** ** The image locator *)

Module ImageFacts.
Import PyStr Html BS4 Scraper Notions.

Lemma matches_lit_eol w : forall s,
  Re.matches (Re.lit w) s (fun s' => Re.matches Re.Eol s' (fun _ => true))
  = (s =? w) || (s =? w ++ LF).
Proof.
  induction w as [|c w IH]; intros s; cbn [Re.lit Re.matches].
  - rewrite andb_true_r. reflexivity.
  - destruct s as [|d s]; [reflexivity|].
    rewrite IH. simpl. rewrite (Ascii.eqb_sym d c).
    destruct (c =? d)%char; reflexivity.
Qed.

(** A match of the pattern at the start of [s]. *)
Lemma matches_image_pattern s :
  Re.matches Re.image_pattern s (fun _ => true)
  = existsb (fun ext => (s =? "." ++ ext) || (s =? "." ++ ext ++ LF))
            Re.image_extensions.
Proof.
  unfold Re.image_pattern. cbn [Re.matches].
  destruct s as [|d s]; [reflexivity|].
  rewrite !matches_lit_eol.
  destruct (Ascii.eqb_spec "." d) as [<- | Hne].
  - simpl. rewrite orb_false_r. reflexivity.
  - assert (E : forall w, (String d s =? String "." w) = false).
    { intros w. apply String.eqb_neq. congruence. }
    unfold Re.image_extensions. cbn [existsb append].
    rewrite !E. reflexivity.
Qed.

Lemma existsb_split {A : Type} (f1 f2 g1 g2 : A -> bool) l :
  existsb (fun x => f1 x || f2 x) l || existsb (fun x => g1 x || g2 x) l
  = existsb (fun x => (f1 x || g1 x) || (f2 x || g2 x)) l.
Proof.
  induction l as [|x l IH]; simpl; [reflexivity|].
  rewrite <- IH.
  destruct (f1 x), (f2 x), (g1 x), (g2 x); simpl;
    rewrite ?orb_true_r; reflexivity.
Qed.

(** [re.search] with the pattern of [find_image]. *)
Lemma search_image_pattern s :
  Re.search Re.image_pattern s
  = existsb (fun ext => endswith s ("." ++ ext)
                        || endswith s ("." ++ ext ++ LF))
            Re.image_extensions.
Proof.
  induction s as [|c s IH].
  - reflexivity.
  - cbn [Re.search]. rewrite IH, matches_image_pattern, existsb_split.
    reflexivity.
Qed.

Lemma image_test href :
  Re.search Re.image_pattern href || contains "imgur" href = image_link href.
Proof. unfold image_link. rewrite search_image_pattern. reflexivity. Qed.

Lemma first_image_find elements :
  first_image elements
  = find image_link
      (flat_map (fun t => match t with
                          | Tag _ a _ =>
                              match attr_get "href" a with
                              | Some h => [h]
                              | None => []
                              end
                          | Text _ => []
                          end) elements).
Proof.
  induction elements as [|[s | nm a ch] rest IH]; simpl; auto.
  destruct (attr_get "href" a) as [h|]; simpl; auto.
  rewrite image_test, IH. reflexivity.
Qed.

Lemma endswith_spec s suffix :
  endswith s suffix = true <-> exists pre, s = pre ++ suffix.
Proof.
  induction s as [|c s IH]; cbn [endswith].
  - rewrite orb_false_r. split.
    + intros H. exists EmptyString. apply String.eqb_eq in H. exact H.
    + intros [pre H]. destruct pre; [|discriminate]. simpl in H.
      subst. reflexivity.
  - rewrite orb_true_iff, IH. split.
    + intros [H | [pre H]].
      * apply String.eqb_eq in H. exists EmptyString. exact H.
      * exists (String c pre). simpl. congruence.
    + intros [[|d pre] H]; simpl in H.
      * left. rewrite H. apply String.eqb_refl.
      * right. exists pre. congruence.
Qed.

Lemma append_assoc (a b c : string) : (a ++ b) ++ c = a ++ (b ++ c).
Proof. induction a; simpl; congruence. Qed.

Lemma endswith_trans s w suffix :
  endswith s (w ++ suffix) = true -> endswith s suffix = true.
Proof.
  rewrite !endswith_spec. intros [pre ->].
  exists (pre ++ w). symmetry. apply append_assoc.
Qed.

Lemma existsb_eq {A : Type} (f g : A -> bool) l :
  (forall x, f x = g x) -> existsb f l = existsb g l.
Proof.
  intros H. induction l as [|x l IH]; simpl; [reflexivity|].
  rewrite H, IH. reflexivity.
Qed.

(** On a target that does not end with a line feed the test of the code is
    the test of the specification. *)
Lemma image_link_spec href :
  endswith href LF = false -> image_link href = spec_image_link href.
Proof.
  intros H. unfold image_link, spec_image_link. f_equal.
  assert (E : forall ext, endswith href ("." ++ ext ++ LF) = false).
  { intros ext. destruct (endswith href ("." ++ ext ++ LF)) eqn:E; auto.
    change ("." ++ ext ++ LF) with (String "." (ext ++ LF)) in E.
    change (String "." (ext ++ LF)) with (("." ++ ext) ++ LF) in E.
    apply endswith_trans in E. congruence. }
  apply existsb_eq. intros ext. rewrite E, orb_false_r. reflexivity.
Qed.

(** C5, refuted as stated: a target made of [.png] and a final line feed
    does not end with an extension and does not contain ["imgur"], and
    [find_image] returns it. *)
Lemma find_image_trailing_newline :
  bs_parse newline_link
    = [Tag "a" [("href", "http://example.com/x.png" ++ LF)] [Text "pic"]]
  /\ find_image bs_parse (described newline_link)
     = Some ("http://example.com/x.png" ++ LF)
  /\ spec_image_link ("http://example.com/x.png" ++ LF) = false
  /\ find spec_image_link (hrefs (bs_parse newline_link)) = None.
Proof. repeat split; reflexivity. Qed.

(** C5, amended. [find_image] returns the target of the first anchor, in
    document order and among the anchors that have a link attribute, whose
    target ends with one of the extensions, possibly followed by one final
    line feed, or contains ["imgur"]; it returns nothing when there is no
    such anchor.  On targets that do not end with a line feed this is the
    test of the specification, and with an [x.png] anchor before an imgur
    anchor the [x.png] target is returned. *)
Theorem find_image_first_match (parse : string -> soup) (post : Post) :
  find_image parse post = find image_link (hrefs (parse (description post)))
  /\ (forall href, endswith href LF = false ->
                   image_link href = spec_image_link href)
  /\ find_image bs_parse (described two_anchors)
     = Some "http://example.com/x.png".
Proof.
  split; [|split].
  - unfold find_image, hrefs. apply first_image_find.
  - apply image_link_spec.
  - reflexivity.
Qed.

Lemma find_image_first_match_witness :
  find_image bs_parse (described two_anchors)
    = find image_link (hrefs (bs_parse two_anchors))
  /\ image_link "http://example.com/x.png"
     = spec_image_link "http://example.com/x.png".
Proof.
  destruct (find_image_first_match bs_parse (described two_anchors))
    as (H1 & H2 & _).
  split; [exact H1 | apply H2; reflexivity].
Defined.

End ImageFacts.

(** ** The dedup store *)

Module StoreFacts.
Import PyStr Html Scraper Notions.
Local Open Scope list_scope.

Lemma mem_In x l : mem x l = true <-> In x l.
Proof.
  unfold mem. rewrite existsb_exists. split.
  - intros (y & Hy & E). apply String.eqb_eq in E. subst. exact Hy.
  - intros H. exists x. split; [exact H | apply String.eqb_refl].
Qed.

Lemma mem_false x l : mem x l = false <-> ~ In x l.
Proof.
  rewrite <- mem_In. destruct (mem x l); split; intros H; congruence.
Qed.

Lemma last_n_length {A : Type} n (l : list A) :
  List.length (last_n n l) = Nat.min n (List.length l).
Proof. unfold last_n. rewrite length_skipn. lia. Qed.

(** The kept part is a suffix. *)
Lemma last_n_suffix {A : Type} n (l : list A) :
  exists dropped, l = dropped ++ last_n n l.
Proof.
  exists (firstn (List.length l - n) l). unfold last_n.
  symmetry. apply firstn_skipn.
Qed.

(** Truncating before appending does not change the final truncation. *)
Lemma last_n_app_last_n {A : Type} n (a b : list A) :
  last_n n (last_n n a ++ b) = last_n n (a ++ b).
Proof.
  unfold last_n.
  assert (E : skipn (List.length a - n) a ++ b
              = skipn (List.length a - n) (a ++ b)).
  { rewrite skipn_app.
    replace (List.length a - n - List.length a) with 0 by lia. reflexivity. }
  rewrite E, skipn_skipn, length_skipn, !length_app. f_equal. lia.
Qed.

Lemma record_posts_app st xs ys :
  record_posts (record_posts st xs) ys = record_posts st (xs ++ ys).
Proof.
  unfold record_posts. simpl. f_equal.
  rewrite last_n_app_last_n, map_app, app_assoc. reflexivity.
Qed.

Lemma record_posts_nil st :
  List.length (visited st) <= 500 -> record_posts st [] = st.
Proof.
  intros H. destruct st as [v]. unfold record_posts, last_n. simpl in *.
  rewrite app_nil_r. replace (List.length v - 500) with 0 by lia. reflexivity.
Qed.

Lemma record_posts_bound st posts :
  List.length (visited (record_posts st posts)) <= 500.
Proof. simpl. rewrite last_n_length. lia. Qed.

(** Recording batch after batch is recording all the posts at once. *)
Lemma record_posts_batches batches : forall st,
  List.length (visited st) <= 500 ->
  fold_left record_posts batches st = record_posts st (List.concat batches).
Proof.
  induction batches as [|b bs IH]; intros st H; simpl.
  - symmetry. apply record_posts_nil. exact H.
  - rewrite IH by apply record_posts_bound. apply record_posts_app.
Qed.

Lemma NoDup_skipn {A : Type} n (l : list A) : NoDup l -> NoDup (skipn n l).
Proof.
  intros H. rewrite <- (firstn_skipn n l) in H.
  apply NoDup_app_remove_l in H. exact H.
Qed.

Lemma distinct_NoDup l : distinct l = true -> NoDup l.
Proof.
  induction l as [|x l IH]; simpl; intros H; constructor.
  - apply andb_true_iff in H. destruct H as [H _].
    apply negb_true_iff in H. apply mem_false. exact H.
  - apply IH. apply andb_true_iff in H. tauto.
Qed.

(** C6. Recording appends the identifiers and keeps the last 500 of the
    sequence, dropping from the front; 600 distinct identifiers recorded
    into an empty store, at once or batch by batch, leave exactly the last
    500 of them, in their order. *)
Theorem record_posts_cap (st : ScraperState) (posts ids : list Post) :
  NoDup (map guid ids) ->
  List.length ids = 600 ->
  (exists dropped,
      visited st ++ map guid posts
      = dropped ++ visited (record_posts st posts))
  /\ List.length (visited (record_posts st posts))
     = Nat.min 500 (List.length (visited st) + List.length posts)
  /\ visited (record_posts empty_store ids) = skipn 100 (map guid ids)
  /\ List.length (visited (record_posts empty_store ids)) = 500
  /\ NoDup (visited (record_posts empty_store ids))
  /\ (forall batches,
        List.concat batches = ids ->
        fold_left record_posts batches empty_store
        = record_posts empty_store ids).
Proof.
  intros Hd Hl.
  assert (E : visited (record_posts empty_store ids)
              = skipn 100 (map guid ids)).
  { simpl. unfold last_n. rewrite length_map, Hl. reflexivity. }
  split; [apply last_n_suffix|].
  split; [simpl; rewrite last_n_length, length_app, length_map; reflexivity|].
  split; [exact E|]. rewrite E.
  split; [rewrite length_skipn, length_map, Hl; reflexivity|].
  split; [apply NoDup_skipn; exact Hd|].
  intros batches <-. apply record_posts_batches. simpl. lia.
Qed.

Lemma record_posts_cap_witness :
  visited (record_posts empty_store (numbered 0 600))
    = map guid (numbered 100 500)
  /\ List.length (visited (record_posts empty_store (numbered 0 600))) = 500.
Proof.
  assert (Hd : NoDup (map guid (numbered 0 600))).
  { apply distinct_NoDup. vm_compute. reflexivity. }
  assert (Hl : List.length (numbered 0 600) = 600).
  { vm_compute. reflexivity. }
  destruct (record_posts_cap empty_store [] (numbered 0 600) Hd Hl)
    as (_ & _ & E & L & _).
  split; [rewrite E; vm_compute; reflexivity | exact L].
Defined.

Lemma filter_posts_none st posts :
  (forall post, In post posts -> In (guid post) (visited st)) ->
  filter_posts st posts = [].
Proof.
  intros H. unfold filter_posts.
  induction posts as [|p posts IH]; simpl; [reflexivity|].
  rewrite (proj2 (mem_In _ _) (H p (or_introl eq_refl))). simpl.
  apply IH. intros q Hq. apply H. right. exact Hq.
Qed.

(** A batch of at most 500 posts is recorded whole. *)
Lemma record_posts_keeps st posts post :
  List.length posts <= 500 -> In post posts ->
  In (guid post) (visited (record_posts st posts)).
Proof.
  intros Hl Hin. simpl. unfold last_n.
  rewrite skipn_app. apply in_or_app. right.
  rewrite length_app, length_map.
  replace (List.length (visited st) + List.length posts - 500
           - List.length (visited st)) with 0 by lia.
  simpl. apply in_map. exact Hin.
Qed.

Lemma remove_first_once x l :
  count_occ string_dec l x <= 1 -> mem x (remove_first x l) = false.
Proof.
  induction l as [|y l IH]; simpl; intros H; [reflexivity|].
  destruct (string_dec y x) as [-> | Hne].
  - rewrite String.eqb_refl. apply mem_false.
    apply (count_occ_not_In string_dec). lia.
  - rewrite (proj2 (String.eqb_neq y x) Hne). simpl.
    rewrite (proj2 (String.eqb_neq x y)) by congruence.
    simpl. apply IH. exact H.
Qed.

Lemma refuse_forgets st post :
  count_occ string_dec (visited st) (guid post) <= 1 ->
  filter_posts (refuse st post) [post] = [post].
Proof.
  intros H. unfold refuse, filter_posts.
  destruct (mem (guid post) (visited st)) eqn:E; simpl.
  - rewrite (remove_first_once _ _ H). reflexivity.
  - rewrite E. reflexivity.
Qed.

(** C7, refuted as stated: of 501 identifiers recorded at once the first
    is evicted and passes the filter again; and an identifier recorded
    twice is still filtered out after one [refuse]. *)
Lemma dedup_round_trip_fails :
  filter_posts (record_posts empty_store (numbered 0 501)) (numbered 0 501)
    = [plain_post "0"]
  /\ filter_posts
       (refuse (record_posts empty_store [plain_post "x"; plain_post "x"])
               (plain_post "x"))
       [plain_post "x"]
     = [].
Proof. split; vm_compute; reflexivity. Qed.

(** C7, amended. After recording a batch of at most 500 posts, filtering
    the same posts returns the empty list; after [refuse] of a post whose
    identifier the store holds at most once, filtering that post returns it
    again. *)
Theorem dedup_round_trip (st : ScraperState) (posts : list Post) (post : Post) :
  List.length posts <= 500 ->
  count_occ string_dec (visited (record_posts st posts)) (guid post) <= 1 ->
  filter_posts (record_posts st posts) posts = []
  /\ filter_posts (refuse (record_posts st posts) post) [post] = [post].
Proof.
  intros Hl Hc. split.
  - apply filter_posts_none. intros q Hq.
    apply record_posts_keeps; assumption.
  - apply refuse_forgets. exact Hc.
Qed.

Lemma dedup_round_trip_witness :
  filter_posts (record_posts empty_store (numbered 0 3)) (numbered 0 3) = []
  /\ filter_posts
       (refuse (record_posts empty_store (numbered 0 3)) (plain_post "1"))
       [plain_post "1"]
     = [plain_post "1"].
Proof.
  apply (dedup_round_trip empty_store (numbered 0 3) (plain_post "1")).
  - vm_compute. lia.
  - vm_compute. lia.
Defined.

End StoreFacts.

(** ** Delivery and the tick *)

Module TickFacts.
Import PyStr Html BS4 Scraper Bot Notions StoreFacts.
Local Open Scope list_scope.

Section Facts.

Variable parse_html : string -> soup.
Variable parse_minified : string -> soup.
Variable decode : soup -> string.
Variable feed_response : list call -> result (nat * string).
Variable feedparser_parse : string -> result (list Entry).
Variable image_response : list call -> string -> result string.
Variable bot_accepts : list call -> call -> bool.
Variable feed_url : string.
Variable chat_id : string.

Local Notation find_image' := (find_image parse_html).
Local Notation new_posts' := (new_posts parse_html parse_minified decode).
Local Notation send_post' := (send_post image_response bot_accepts chat_id).
Local Notation send_all' := (send_all image_response bot_accepts chat_id).
Local Notation outcomes' := (outcomes image_response bot_accepts chat_id).
Local Notation forget := (fun v g => remove_first g v).

(** [new_posts] sets the key image of every post it returns. *)
Lemma new_posts_sets_image st fetched posts st1 post :
  new_posts' st fetched = (Ok posts, st1) ->
  In post posts ->
  image post = Some (find_image' post).
Proof.
  unfold new_posts. destruct fetched as [entries|e]; [|discriminate].
  destruct (for_each _ _) as [cleaned|e]; simpl; [|discriminate].
  intros [= <- _] Hin. apply in_map_iff in Hin.
  destruct Hin as (p & <- & _). reflexivity.
Qed.

Lemma send_post_without_image log post :
  image post = Some None ->
  send_post' log post = (log ++ [ImageGet None], false).
Proof. intros H. unfold send_post. rewrite H. reflexivity. Qed.

(** A post without the key image goes out in the text-only shape. *)
Lemma send_post_text_only log post :
  image post = None ->
  send_post' log post
  = (log ++ [text_only chat_id post],
     bot_accepts log (text_only chat_id post)).
Proof. intros H. unfold send_post. rewrite H. reflexivity. Qed.

(** C1, on the code. A post that [new_posts] returns and in whose
    description [find_image] finds no image still carries the key image, with
    the value [None]; [send_post] takes the image branch, the request for the
    image raises, and the call returns [False] without any message sent. *)
Theorem send_post_never_text_only st fetched posts st1 post log :
  new_posts parse_html parse_minified decode st fetched = (Ok posts, st1) ->
  In post posts ->
  find_image parse_html post = None ->
  send_post image_response bot_accepts chat_id log post
  = (log ++ [ImageGet None], false).
Proof.
  intros Hn Hin Hf. apply send_post_without_image.
  rewrite (new_posts_sets_image _ _ _ _ _ Hn Hin), Hf. reflexivity.
Qed.

Lemma sent_guids_app l1 l2 : sent_guids (l1 ++ l2) = sent_guids l1 ++ sent_guids l2.
Proof. apply flat_map_app. Qed.

(** [send_post] only adds calls, none of them a log line, and a call that
    hands over the post when it returns [True]. *)
Lemma send_post_calls log post :
  exists ext,
    fst (send_post' log post) = log ++ ext
    /\ sent_guids ext = []
    /\ (snd (send_post' log post) = true ->
        exists c, In c ext /\ delivers chat_id post c = true).
Proof.
  unfold send_post. destruct (image post) as [img|].
  - destruct (fetch_image image_response log img) as [content|e].
    + eexists [_; _]. simpl. rewrite <- app_assoc.
      split; [reflexivity|]. split; [reflexivity|].
      intros _. eexists. split; [right; left; reflexivity|].
      simpl. rewrite !String.eqb_refl. reflexivity.
    + exists [ImageGet img]. simpl. repeat split. discriminate.
  - eexists [_]. simpl. split; [reflexivity|]. split; [reflexivity|].
    intros _. eexists. split; [left; reflexivity|].
    simpl. rewrite !String.eqb_refl. reflexivity.
Qed.

Lemma remove_first_absent x l : ~ In x l -> remove_first x l = l.
Proof.
  induction l as [|y l IH]; simpl; intros H; [reflexivity|].
  destruct (String.eqb_spec y x) as [-> | Hne]; [tauto|].
  f_equal. apply IH. tauto.
Qed.

Lemma visited_refuse st post :
  visited (refuse st post) = remove_first (guid post) (visited st).
Proof.
  unfold refuse. destruct (mem (guid post) (visited st)) eqn:E.
  - reflexivity.
  - symmetry. apply remove_first_absent. apply mem_false. exact E.
Qed.

Lemma remove_first_In x g l : In x (remove_first g l) -> In x l.
Proof.
  induction l as [|y l IH]; simpl; [tauto|].
  destruct (y =? g); simpl; tauto.
Qed.

Lemma remove_first_other x g l : x <> g -> In x l -> In x (remove_first g l).
Proof.
  intros Hne. induction l as [|y l IH]; simpl; [tauto|].
  destruct (String.eqb_spec y g) as [-> | Hy]; simpl; intuition congruence.
Qed.

Lemma count_remove_first x g l :
  count_occ string_dec (remove_first g l) x <= count_occ string_dec l x.
Proof.
  induction l as [|y l IH]; simpl; [lia|].
  destruct (String.eqb_spec y g) as [-> | Hy]; simpl.
  - destruct (string_dec g x); lia.
  - destruct (string_dec y x); lia.
Qed.

Lemma count_remove_first_same x l :
  count_occ string_dec (remove_first x l) x = count_occ string_dec l x - 1.
Proof.
  induction l as [|y l IH]; simpl; [reflexivity|].
  destruct (String.eqb_spec y x) as [-> | Hy]; simpl.
  - destruct (string_dec x x); [lia | congruence].
  - destruct (string_dec y x); [congruence | exact IH].
Qed.

(** Forgetting the failed identifiers touches no other identifier. *)
Lemma forget_others x gs : forall v,
  ~ In x gs -> (In x (fold_left forget gs v) <-> In x v).
Proof.
  induction gs as [|g gs IH]; intros v H; simpl; [tauto|].
  simpl in H. rewrite IH by tauto. split.
  - apply remove_first_In.
  - apply remove_first_other. intuition congruence.
Qed.

Lemma forget_count x gs : forall v,
  count_occ string_dec (fold_left forget gs v) x <= count_occ string_dec v x.
Proof.
  induction gs as [|g gs IH]; intros v; simpl; [lia|].
  etransitivity; [apply IH | apply count_remove_first].
Qed.

(** An identifier held once is gone when it is among the failed ones. *)
Lemma forget_failed x gs : forall v,
  In x gs -> count_occ string_dec v x <= 1 -> ~ In x (fold_left forget gs v).
Proof.
  induction gs as [|g gs IH]; intros v Hin Hc; simpl; [destruct Hin|].
  destruct (string_dec g x) as [-> | Hne].
  - apply (count_occ_not_In string_dec).
    pose proof (forget_count x gs (remove_first x v)) as H.
    rewrite count_remove_first_same in H. lia.
  - apply IH; [destruct Hin; congruence|].
    etransitivity; [apply count_remove_first | exact Hc].
Qed.

Lemma failed_guids_cons post result rs :
  failed_guids ((post, result) :: rs)
  = if result then failed_guids rs else guid post :: failed_guids rs.
Proof. unfold failed_guids. simpl. destruct result; reflexivity. Qed.

(** The loop of the tick: every post is announced, in order; the store
    loses the identifiers of the failed posts; a post whose delivery
    succeeded was handed to the channel. *)
Lemma send_all_spec posts : forall log st log2 st2,
  send_all' log st posts = (log2, st2) ->
  sent_guids log2 = sent_guids log ++ map guid posts
  /\ visited st2
     = fold_left forget (failed_guids (outcomes' log posts)) (visited st)
  /\ (exists ext, log2 = log ++ ext)
  /\ (forall B, In (B, true) (outcomes' log posts) ->
                exists c, In c log2 /\ delivers chat_id B c = true).
Proof.
  induction posts as [|p rest IH]; intros log st log2 st2; simpl.
  - intros [= <- <-]. rewrite app_nil_r. repeat split.
    + exists []. symmetry. apply app_nil_r.
    + intros B [].
  - destruct (send_post_calls (log ++ [LogSending (guid p)]) p)
      as (ext & E1 & E2 & E3).
    destruct (send_post' (log ++ [LogSending (guid p)]) p) as [log1 r].
    simpl in E1, E3. subst log1. intros H.
    destruct (IH _ _ _ _ H) as (S1 & S2 & (ext2 & S3) & S4).
    split; [|split; [|split]].
    + rewrite S1, !sent_guids_app, E2, app_nil_r, <- app_assoc. reflexivity.
    + rewrite S2, failed_guids_cons. destruct r; [reflexivity|].
      simpl. rewrite visited_refuse. reflexivity.
    + exists ([LogSending (guid p)] ++ ext ++ ext2).
      rewrite S3, <- !app_assoc. reflexivity.
    + intros B [[= <- ->] | HB]; [|apply S4; exact HB].
      destruct (E3 eq_refl) as (c & Hc & Hd).
      exists c. split; [|exact Hd].
      rewrite S3. apply in_or_app. left. apply in_or_app. right. exact Hc.
Qed.

(** C2, amended. When [fetch_new_posts] raises, the tick makes no call
    after the feed request, leaves the store as it was and does not write
    the state file.  When [new_posts] returns, the last call of the tick
    writes the final store to the state file, whatever the deliveries
    did. *)
Theorem tick_persistence log st :
  (forall e,
      fetch_new_posts (feed_response log) feedparser_parse = Raise e ->
      tick parse_html parse_minified decode feed_response feedparser_parse
           image_response bot_accepts feed_url chat_id log st
      = (log ++ [FeedGet feed_url], st))
  /\ (forall posts st1,
        new_posts parse_html parse_minified decode st
                  (fetch_new_posts (feed_response log) feedparser_parse)
        = (Ok posts, st1) ->
        exists calls st2,
          tick parse_html parse_minified decode feed_response
               feedparser_parse image_response bot_accepts feed_url chat_id
               log st
          = (calls ++ [SaveState "scraper.json" st2], st2)).
Proof.
  split.
  - intros e H. unfold tick. rewrite H. reflexivity.
  - intros posts st1 H. unfold tick. rewrite H.
    destruct (send_all' (log ++ [FeedGet feed_url]) st1 posts) as [log2 st2].
    exists log2, st2. reflexivity.
Qed.

(** C10. When [new_posts] returns a batch, every post of the batch is
    attempted, in feed order, and the store is written afterwards.  The
    store loses the identifiers of the posts whose delivery failed and no
    other: a post whose delivery succeeded was handed to the channel, an
    identifier that is not the one of a failed post is in the store after
    the loop exactly when it was before, and the identifier of a failed
    post, held once, is gone. *)
Theorem tick_failure_isolation log st posts st1 :
  new_posts parse_html parse_minified decode st
            (fetch_new_posts (feed_response log) feedparser_parse)
  = (Ok posts, st1) ->
  exists log2 st2,
    tick parse_html parse_minified decode feed_response feedparser_parse
         image_response bot_accepts feed_url chat_id log st
    = (log2 ++ [SaveState "scraper.json" st2], st2)
    /\ sent_guids log2 = sent_guids log ++ map guid posts
    /\ let results :=
         outcomes image_response bot_accepts chat_id
                  (log ++ [FeedGet feed_url]) posts in
       visited st2 = fold_left forget (failed_guids results) (visited st1)
       /\ (forall B, In (B, true) results ->
                     exists c, In c log2 /\ delivers chat_id B c = true)
       /\ (forall x, ~ In x (failed_guids results) ->
                     (In x (visited st2) <-> In x (visited st1)))
       /\ (forall A, In (A, false) results ->
                     count_occ string_dec (visited st1) (guid A) <= 1 ->
                     ~ In (guid A) (visited st2)).
Proof.
  intros H. unfold tick. rewrite H.
  destruct (send_all' (log ++ [FeedGet feed_url]) st1 posts) as [log2 st2] eqn:E.
  destruct (send_all_spec _ _ _ _ _ E) as (S1 & S2 & _ & S4).
  exists log2, st2. split; [reflexivity|]. split.
  - rewrite S1, sent_guids_app. simpl. rewrite app_nil_r. reflexivity.
  - cbv zeta. split; [exact S2|]. split; [exact S4|]. rewrite S2. split.
    + intros x Hx. apply forget_others. exact Hx.
    + intros A HA Hc. apply forget_failed; [|exact Hc].
      unfold failed_guids. apply in_map_iff. exists (A, false).
      split; [reflexivity|]. apply filter_In. split; [exact HA | reflexivity].
Qed.

End Facts.

(** *** Sample runs *)

Lemma send_post_never_text_only_witness :
  send_post image_ok accepts_all "chat" []
            (set_image (described "hello") None)
  = ([ImageGet None], false).
Proof.
  apply (send_post_never_text_only bs_parse bs_parse bs_decode
           image_ok accepts_all "chat" empty_store no_image_feed
           [set_image (described "hello") None]
           {| visited := ["g"] |}).
  - reflexivity.
  - left. reflexivity.
  - reflexivity.
Defined.

(** C2, refuted as stated: the feed answers with status 500, and the tick
    ends after the feed request without writing the state file. *)
Lemma tick_fetch_failure_saves_nothing :
  tick bs_parse bs_parse bs_decode feed_down no_entries image_ok accepts_all
       "feed" "chat" [] seen
  = ([FeedGet "feed"], seen)
  /\ saved_states [FeedGet "feed"] = [].
Proof. split; reflexivity. Qed.

Lemma tick_persistence_witness :
  tick bs_parse bs_parse bs_decode feed_down no_entries image_ok accepts_all
       "feed" "chat" [] seen
  = ([FeedGet "feed"], seen)
  /\ exists calls st2,
       tick bs_parse bs_parse bs_decode feed_up two_entries image_ok
            (rejects_title "a") "feed" "chat" [] seen
       = (calls ++ [SaveState "scraper.json" st2], st2).
Proof.
  split.
  - apply (proj1 (tick_persistence bs_parse bs_parse bs_decode feed_down
                    no_entries image_ok accepts_all "feed" "chat" [] seen)
             HTTPFailed).
    reflexivity.
  - destruct (proj2 (tick_persistence bs_parse bs_parse bs_decode feed_up
                       two_entries image_ok (rejects_title "a") "feed" "chat"
                       [] seen)
                _ _ eq_refl) as (calls & st2 & H).
    exists calls, st2. exact H.
Defined.

Lemma tick_failure_isolation_witness :
  exists log2 st2,
    tick bs_parse bs_parse bs_decode feed_up two_entries image_ok
         (rejects_title "a") "feed" "chat" [] seen
    = (log2 ++ [SaveState "scraper.json" st2], st2)
    /\ sent_guids log2 = ["a"; "b"]
    /\ visited st2 = ["old"; "b"].
Proof.
  destruct (tick_failure_isolation bs_parse bs_parse bs_decode feed_up
              two_entries image_ok (rejects_title "a") "feed" "chat"
              [] seen _ _ eq_refl)
    as (log2 & st2 & H1 & H2 & H3 & _).
  exists log2, st2. split; [exact H1|]. split; [exact H2 | exact H3].
Defined.

End TickFacts.

(** ** Further properties of the normalizer *)

Module HtmlMore.
Import PyStr Html BS4 Notions Shapes HtmlFacts.
Local Open Scope list_scope.

Lemma rewrite_loop_exn decode n : forall doc e,
  rewrite_loop decode n doc = Raise e -> e = IndexError.
Proof.
  induction n as [|n IH]; intros doc e; simpl; [discriminate|].
  destruct (pass doc) as [doc'|e1] eqn:E; simpl.
  - destruct (_ =? _)%nat; [discriminate | apply IH].
  - intros [= <-]. eapply pass_exn. eassumption.
Qed.

(** X1. [html_minify] raises exactly on a non-empty document whose parsed
    tree holds an [li] element without children, and the exception is the
    index error; on every other document it returns. *)
Theorem html_minify_raises_iff
    (parse : string -> soup) (decode : soup -> string)
    (html_doc : string) (e : exn) :
  html_minify parse decode html_doc = Raise e
  <-> e = IndexError /\ html_doc <> EmptyString
      /\ existsb has_empty_li (parse html_doc) = true.
Proof.
  unfold html_minify. split.
  - intros H.
    destruct (minified parse decode html_doc) as [out|e1] eqn:E;
      [discriminate|].
    simpl in H. injection H as <-. split; [|split].
    + eapply rewrite_loop_exn. exact E.
    + intros ->. discriminate.
    + destruct (existsb has_empty_li (parse html_doc)) eqn:L; [reflexivity|].
      destruct (minified_returns parse decode html_doc L) as [out E'].
      congruence.
  - intros (-> & Hne & L). unfold minified.
    destruct (length_nonempty _ Hne) as [n ->]. simpl.
    rewrite (pass_empty_li _ L). reflexivity.
Qed.

Lemma settled_tag nm a ch :
  settled (Tag nm a ch)
  = negb (mem nm flattened)
    && (mem nm preserved || (2 <=? List.length ch)%nat)
    && forallb settled ch.
Proof. reflexivity. Qed.

Lemma visit_settled nm a ch n' :
  forallb settled ch = true -> visit nm a ch = Ok n' -> settled n' = true.
Proof.
  intros F. unfold visit.
  destruct (nm =? "br") eqn:Hbr; [intros [= <-]; reflexivity|].
  destruct (nm =? "p") eqn:Hp; [intros [= <-]; reflexivity|].
  destruct (nm =? "li") eqn:Hli.
  { destruct ch; [discriminate | intros [= <-]; reflexivity]. }
  assert (Hf : mem nm flattened = false).
  { unfold mem, flattened. simpl. rewrite Hbr, Hp, Hli. reflexivity. }
  destruct (mem nm preserved) eqn:Hv.
  - intros [= <-]. rewrite settled_tag, Hf, Hv, F. reflexivity.
  - destruct ch as [|c0 [|c1 r]]; intros [= <-].
    + reflexivity.
    + simpl in F. rewrite andb_true_r in F. exact F.
    + rewrite settled_tag, Hf, Hv, F. reflexivity.
Qed.

Lemma pass_settled_list ch :
  Forall (fun n => forall n', pass_node n = Ok n' -> settled n' = true) ch ->
  forall ch', pass ch = Ok ch' -> forallb settled ch' = true.
Proof.
  induction 1 as [|c r Hc _ IH]; intros ch'.
  - intros [= <-]. reflexivity.
  - rewrite pass_cons.
    destruct (pass r) as [r'|] eqn:Er; [|discriminate]. simpl.
    destruct (pass_node c) as [c'|] eqn:Ec; [|discriminate]. simpl.
    intros [= <-]. simpl. rewrite (Hc _ eq_refl), (IH _ eq_refl). reflexivity.
Qed.

Lemma pass_node_settled n : forall n', pass_node n = Ok n' -> settled n' = true.
Proof.
  induction n as [s | nm a ch IH] using node_induction; intros n'.
  - intros [= <-]. reflexivity.
  - rewrite pass_node_tag.
    destruct (pass ch) as [ch'|] eqn:E; [|discriminate]. simpl.
    apply visit_settled. eapply pass_settled_list; eassumption.
Qed.

Lemma pass_settled doc doc' :
  pass doc = Ok doc' -> forallb settled doc' = true.
Proof.
  apply pass_settled_list. apply Forall_forall.
  intros n _. apply pass_node_settled.
Qed.

Lemma settled_fixed_list ch :
  Forall (fun n => settled n = true -> pass_node n = Ok n) ch ->
  forallb settled ch = true -> pass ch = Ok ch.
Proof.
  induction 1 as [|c r Hc _ IH]; simpl; intros H; [reflexivity|].
  apply andb_true_iff in H. destruct H as [H1 H2].
  rewrite (IH H2), (Hc H1). reflexivity.
Qed.

(** A pass leaves a settled subtree as it is. *)
Lemma settled_fixed_node n : settled n = true -> pass_node n = Ok n.
Proof.
  induction n as [s | nm a ch IH] using node_induction; intros H.
  - reflexivity.
  - rewrite settled_tag in H.
    apply andb_true_iff in H. destruct H as [H Hc].
    apply andb_true_iff in H. destruct H as [Hf Hk].
    apply negb_true_iff in Hf.
    rewrite pass_node_tag, (settled_fixed_list ch IH Hc). unfold bind.
    rewrite (visit_not_flattened _ _ _ Hf).
    destruct (mem nm preserved); [reflexivity|].
    simpl in Hk. destruct ch as [|c0 [|c1 r]]; try discriminate.
    reflexivity.
Qed.

Lemma settled_fixed doc : forallb settled doc = true -> pass doc = Ok doc.
Proof.
  apply settled_fixed_list. apply Forall_forall.
  intros n _. apply settled_fixed_node.
Qed.

(** X2. The loop of [html_minify] is settled after its first pass: on a
    non-empty document the tree it serializes is the result of one pass
    over the parsed tree (or the exception of that pass), whatever the
    serialized lengths are, and one more pass would change nothing. *)
Theorem html_minify_one_pass
    (parse : string -> soup) (decode : soup -> string) (html_doc : string) :
  html_doc <> EmptyString ->
  minified parse decode html_doc = pass (parse html_doc)
  /\ (forall out, minified parse decode html_doc = Ok out -> pass out = Ok out).
Proof.
  intros Hne. unfold minified.
  destruct (length_nonempty _ Hne) as [n ->].
  assert (E : rewrite_loop decode (S n) (parse html_doc) = pass (parse html_doc)).
  { simpl. destruct (pass (parse html_doc)) as [doc'|e] eqn:P; simpl;
      [|reflexivity].
    destruct (_ =? _)%nat; [reflexivity|].
    apply rewrite_loop_stable, settled_fixed. eapply pass_settled. exact P. }
  split; [exact E|]. rewrite E. intros out P.
  apply settled_fixed. eapply pass_settled. exact P.
Qed.

Lemma html_minify_one_pass_witness :
  minified bs_parse bs_decode boxed_link = pass (bs_parse boxed_link)
  /\ pass [Tag "div" [] [Text (LF ++ "read it"); Tag "i" [] [Text "now"]]]
     = Ok [Tag "div" [] [Text (LF ++ "read it"); Tag "i" [] [Text "now"]]].
Proof.
  assert (Hne : boxed_link <> EmptyString) by discriminate.
  destruct (html_minify_one_pass bs_parse bs_decode boxed_link Hne)
    as [H1 H2].
  split; [exact H1 | apply H2; reflexivity].
Defined.

Lemma filter_nil {A : Type} (f : A -> bool) l :
  (forall x, In x l -> f x = false) -> filter f l = [].
Proof.
  induction l as [|x l IH]; simpl; intros H; [reflexivity|].
  rewrite (H x (or_introl eq_refl)). apply IH. intros y Hy. apply H. now right.
Qed.

Lemma all_tags_elements n : forall t,
  In t (all_tags n) ->
  exists nm a ch, t = Tag nm a ch /\ In (nm, a) (elements n).
Proof.
  induction n as [s | nm a ch IH] using node_induction; intros t; simpl.
  - intros [].
  - intros [<- | H].
    + exists nm, a, ch. split; [reflexivity | now left].
    + apply in_flat_map in H. destruct H as (c & Hc & Ht).
      rewrite Forall_forall in IH.
      destruct (IH c Hc t Ht) as (nm' & a' & ch' & -> & Hin).
      exists nm', a', ch'. split; [reflexivity|].
      right. apply in_flat_map. exists c. split; assumption.
Qed.

Lemma find_all_elements nm doc t :
  In t (find_all nm doc) ->
  exists a ch, t = Tag nm a ch /\ In (nm, a) (flat_map elements doc).
Proof.
  unfold find_all, find_all_tags. intros H.
  apply filter_In in H. destruct H as [H Hn].
  apply in_flat_map in H. destruct H as (c & Hc & Ht).
  destruct (all_tags_elements c t Ht) as (nm' & a & ch & -> & Hin).
  apply String.eqb_eq in Hn. subst nm'.
  exists a, ch. split; [reflexivity|].
  apply in_flat_map. exists c. split; assumption.
Qed.

(** An element name that no element carries is not found. *)
Lemma find_all_none nm doc :
  (forall a, ~ In (nm, a) (flat_map elements doc)) -> find_all nm doc = [].
Proof.
  intros H. destruct (find_all nm doc) as [|t l] eqn:E; [reflexivity|].
  destruct (find_all_elements nm doc t) as (a & ch & _ & Hin).
  { rewrite E. now left. }
  destruct (H a Hin).
Qed.

Lemma settled_elements n :
  settled n = true ->
  forall nm a, In (nm, a) (elements n) -> mem nm flattened = false.
Proof.
  induction n as [s | nm a ch IH] using node_induction; intros H nm' a'; simpl.
  - intros [].
  - rewrite settled_tag in H.
    apply andb_true_iff in H. destruct H as [H Hc].
    apply andb_true_iff in H. destruct H as [Hf _].
    apply negb_true_iff in Hf.
    intros [[= <- <-] | Hin]; [exact Hf|].
    apply in_flat_map in Hin. destruct Hin as (c & Hc' & Hin).
    rewrite Forall_forall in IH. rewrite forallb_forall in Hc.
    eapply IH; eauto.
Qed.

(** X3. On a non-empty document the tree [html_minify] serializes holds no
    [br], [p] or [li] element, and each of its elements outside the
    preserved vocabulary has two children or more. *)
Theorem normalized_shape
    (parse : string -> soup) (decode : soup -> string)
    (html_doc : string) (out : soup) :
  html_doc <> EmptyString ->
  minified parse decode html_doc = Ok out ->
  forallb settled out = true
  /\ find_all "br" out = [] /\ find_all "p" out = [] /\ find_all "li" out = [].
Proof.
  intros Hne H.
  unfold minified in H. destruct (length_nonempty _ Hne) as [n E].
  rewrite E in H. simpl in H.
  destruct (pass (parse html_doc)) as [doc'|] eqn:P; [|discriminate].
  simpl in H. pose proof (pass_settled _ _ P) as S1.
  assert (Hout : out = doc').
  { destruct (_ =? _)%nat; [congruence|].
    rewrite (rewrite_loop_stable decode n doc' (settled_fixed _ S1)) in H.
    congruence. }
  subst doc'. split; [exact S1|].
  assert (N : forall nm, mem nm flattened = true -> find_all nm out = []).
  { intros nm Hm. apply find_all_none. intros a Hin.
    apply in_flat_map in Hin. destruct Hin as (c & Hc & Hin).
    rewrite forallb_forall in S1.
    rewrite (settled_elements c (S1 c Hc) nm a Hin) in Hm. discriminate. }
  repeat split; apply N; reflexivity.
Qed.

Lemma normalized_shape_witness :
  minified bs_parse bs_decode boxed_link
    = Ok [Tag "div" [] [Text (LF ++ "read it"); Tag "i" [] [Text "now"]]]
  /\ find_all "p"
       [Tag "div" [] [Text (LF ++ "read it"); Tag "i" [] [Text "now"]]] = [].
Proof.
  split; [reflexivity|].
  assert (Hne : boxed_link <> EmptyString) by discriminate.
  exact (proj1 (proj2 (proj2
           (normalized_shape bs_parse bs_decode boxed_link _ Hne eq_refl)))).
Defined.

Lemma elements_pass_list ch :
  Forall (fun n => forall n', pass_node n = Ok n' ->
                              incl (elements n') (exposed n)) ch ->
  forall ch', pass ch = Ok ch' ->
              incl (flat_map elements ch') (flat_map exposed ch).
Proof.
  induction 1 as [|c r Hc _ IH]; intros ch'.
  - intros [= <-]. apply incl_refl.
  - rewrite pass_cons.
    destruct (pass r) as [r'|] eqn:Er; [|discriminate]. simpl.
    destruct (pass_node c) as [c'|] eqn:Ec; [|discriminate]. simpl.
    intros [= <-]. simpl. apply incl_app_app; auto.
Qed.

(** A pass invents no element, and keeps none of a [br], [p] or [li]
    subtree. *)
Lemma elements_pass_node n :
  forall n', pass_node n = Ok n' -> incl (elements n') (exposed n).
Proof.
  induction n as [s | nm a ch IH] using node_induction; intros n'.
  - intros [= <-]. apply incl_refl.
  - rewrite pass_node_tag.
    destruct (pass ch) as [ch'|] eqn:E; [|discriminate]. simpl bind.
    pose proof (elements_pass_list ch IH ch' E) as Hl.
    cbn [exposed]. destruct (mem nm flattened) eqn:Hf.
    + unfold visit. unfold mem, flattened in Hf. simpl in Hf.
      destruct (nm =? "br"); [intros [= <-]; apply incl_refl|].
      destruct (nm =? "p"); [intros [= <-]; apply incl_refl|].
      destruct (nm =? "li"); [|discriminate].
      destruct ch'; [discriminate | intros [= <-]; apply incl_refl].
    + rewrite (visit_not_flattened _ _ _ Hf).
      destruct (mem nm preserved).
      * intros [= <-]. simpl. apply incl_cons; [now left|].
        apply incl_tl. exact Hl.
      * destruct ch' as [|c0 [|c1 r]]; intros [= <-].
        -- apply incl_nil_l.
        -- apply incl_tl. simpl in Hl. rewrite app_nil_r in Hl. exact Hl.
        -- simpl. apply incl_cons; [now left|]. apply incl_tl. exact Hl.
Qed.

Lemma elements_pass doc doc' :
  pass doc = Ok doc' -> incl (flat_map elements doc') (flat_map exposed doc).
Proof.
  apply elements_pass_list. apply Forall_forall.
  intros n _. apply elements_pass_node.
Qed.

(** X4. The normalizer invents no element and leaves attributes alone:
    every element of the tree it serializes for a non-empty document is,
    with its name and attributes, an element of the parsed tree that was
    neither a [br], [p] or [li] nor inside one.  So an element name that
    occurs only inside paragraphs or list items, such as an anchor in a
    paragraph, is not found afterwards. *)
Theorem normalized_elements
    (parse : string -> soup) (decode : soup -> string)
    (html_doc : string) (out : soup) :
  html_doc <> EmptyString ->
  minified parse decode html_doc = Ok out ->
  incl (flat_map elements out) (flat_map exposed (parse html_doc))
  /\ (forall nm,
        (forall a, ~ In (nm, a) (flat_map exposed (parse html_doc))) ->
        find_all nm out = []).
Proof.
  intros Hne H.
  unfold minified in H. destruct (length_nonempty _ Hne) as [n E].
  rewrite E in H. simpl in H.
  destruct (pass (parse html_doc)) as [doc'|] eqn:P; [|discriminate].
  simpl in H.
  assert (Hout : out = doc').
  { destruct (_ =? _)%nat; [congruence|].
    rewrite (rewrite_loop_stable decode n doc'
               (settled_fixed _ (pass_settled _ _ P))) in H.
    congruence. }
  subst doc'. pose proof (elements_pass _ _ P) as I.
  split; [exact I|].
  intros nm Hn. apply find_all_none. intros a Hin. exact (Hn a (I _ Hin)).
Qed.

Lemma normalized_elements_witness :
  find_all "a" (bs_parse boxed_link)
    = [Tag "a" [("href", "http://imgur.com/x")] [Text "it"]]
  /\ flat_map exposed (bs_parse boxed_link) = [("div", []); ("i", [])]
  /\ find_all "a"
       [Tag "div" [] [Text (LF ++ "read it"); Tag "i" [] [Text "now"]]] = [].
Proof.
  split; [reflexivity|]. split; [reflexivity|].
  assert (Hne : boxed_link <> EmptyString) by discriminate.
  apply (proj2 (normalized_elements bs_parse bs_decode boxed_link _ Hne
                  eq_refl)).
  intros a [[=] | [[=] | []]].
Defined.

Lemma preserved_not_flattened nm :
  mem nm preserved = true -> mem nm flattened = false.
Proof.
  unfold mem, preserved. cbn [existsb]. intros H.
  repeat (apply orb_true_iff in H; destruct H as [H | H]);
    try discriminate; apply String.eqb_eq in H; subst nm; reflexivity.
Qed.

Lemma all_preserved_settled n : all_preserved n = true -> settled n = true.
Proof.
  induction n as [s | nm a ch IH] using node_induction; intros H.
  - reflexivity.
  - cbn [all_preserved] in H. apply andb_true_iff in H.
    destruct H as [Hv Hc].
    rewrite settled_tag, (preserved_not_flattened _ Hv), Hv. simpl.
    rewrite Forall_forall in IH. rewrite forallb_forall in Hc.
    apply forallb_forall. intros c Hin. apply IH; auto.
Qed.

(** X5. A document whose parsed tree is made of strings and [a], [b],
    [strong], [i] and [em] elements only, nested in any way, goes through
    the normalizer untouched: the result is the serialization of the parsed
    tree. *)
Theorem preserved_document_unchanged
    (parse : string -> soup) (decode : soup -> string) (html_doc : string) :
  forallb all_preserved (parse html_doc) = true ->
  minified parse decode html_doc = Ok (parse html_doc)
  /\ html_minify parse decode html_doc = Ok (decode (parse html_doc)).
Proof.
  intros H.
  assert (E : minified parse decode html_doc = Ok (parse html_doc)).
  { unfold minified. apply rewrite_loop_stable, settled_fixed.
    rewrite forallb_forall in H. apply forallb_forall.
    intros c Hin. apply all_preserved_settled. auto. }
  split; [exact E|]. unfold html_minify. rewrite E. reflexivity.
Qed.

Lemma preserved_document_unchanged_witness :
  bs_parse emphasis
    = [Tag "b" [] [Text "bold "; Tag "i" [] [Text "and"]];
       Tag "a" [("href", "u")] [Text "link"]]
  /\ minified bs_parse bs_decode emphasis = Ok (bs_parse emphasis).
Proof.
  split; [reflexivity|].
  exact (proj1 (preserved_document_unchanged bs_parse bs_decode emphasis
                  eq_refl)).
Defined.

End HtmlMore.

(** ** Further properties of the dedup store *)

Module StoreMore.
Import PyStr Html Scraper Bot Notions Shapes StoreFacts TickFacts.
Local Open Scope list_scope.

Lemma state_eta st : {| visited := visited st |} = st.
Proof. destruct st. reflexivity. Qed.

Lemma state_eq st st' : visited st = visited st' -> st = st'.
Proof. destruct st, st'. simpl. congruence. Qed.

Lemma remove_first_split x l :
  In x l ->
  exists before after,
    l = before ++ x :: after /\ ~ In x before
    /\ remove_first x l = before ++ after.
Proof.
  induction l as [|y l IH]; simpl; [intros []|].
  destruct (String.eqb_spec y x) as [-> | Hne].
  - intros _. exists [], l. simpl. auto.
  - intros [H | H]; [congruence|].
    destruct (IH H) as (b & a & -> & Hb & E).
    exists (y :: b), a. simpl. rewrite E.
    repeat split; auto. intros [? | ?]; auto.
Qed.

Lemma remove_first_missing x l : ~ In x l -> remove_first x l = l.
Proof.
  induction l as [|y l IH]; simpl; intros H; [reflexivity|].
  destruct (String.eqb_spec y x) as [-> | Hne].
  - exfalso. apply H. now left.
  - f_equal. apply IH. intros Hin. apply H. now right.
Qed.

Lemma refuse_visited st post :
  visited (refuse st post) = remove_first (guid post) (visited st).
Proof.
  unfold refuse. destruct (mem (guid post) (visited st)) eqn:E.
  - reflexivity.
  - symmetry. apply remove_first_missing. apply mem_false. exact E.
Qed.

(** X6. [refuse] takes the oldest occurrence of the identifier out of the
    store, keeps the order and every other entry, later occurrences of the
    same identifier included, and does nothing when the identifier is not
    in the store. *)
Theorem refuse_removes_oldest (st : ScraperState) (post : Post) :
  (~ In (guid post) (visited st) -> refuse st post = st)
  /\ (In (guid post) (visited st) ->
      exists before after,
        visited st = before ++ guid post :: after
        /\ ~ In (guid post) before
        /\ visited (refuse st post) = before ++ after).
Proof.
  split.
  - intros H. unfold refuse.
    rewrite (proj2 (mem_false _ _) H). reflexivity.
  - intros H. destruct (remove_first_split _ _ H) as (b & a & E & Hb & R).
    exists b, a. rewrite refuse_visited. repeat split; assumption.
Qed.

Lemma refuse_removes_oldest_witness :
  refuse {| visited := ["a"; "b"] |} (plain_post "c")
    = {| visited := ["a"; "b"] |}
  /\ exists before after,
       ["b"; "a"; "c"; "a"] = before ++ "a" :: after
       /\ ~ In "a" before
       /\ visited (refuse {| visited := ["b"; "a"; "c"; "a"] |}
                          (plain_post "a"))
          = before ++ after.
Proof.
  split.
  - apply (proj1 (refuse_removes_oldest {| visited := ["a"; "b"] |}
                    (plain_post "c"))).
    simpl. intros [H | [H | []]]; discriminate.
  - apply (proj2 (refuse_removes_oldest
                    {| visited := ["b"; "a"; "c"; "a"] |} (plain_post "a"))).
    simpl. auto.
Defined.

Lemma remove_first_middle g v r :
  ~ In g v -> remove_first g (v ++ g :: r) = v ++ r.
Proof.
  induction v as [|y v IH]; simpl; intros H.
  - rewrite String.eqb_refl. reflexivity.
  - destruct (String.eqb_spec y g) as [-> | Hne].
    + exfalso. apply H. now left.
    + f_equal. apply IH. intros Hin. apply H. now right.
Qed.

(** Forgetting, oldest first, the identifiers just appended gives the
    sequence back. *)
Lemma forget_appended gs : forall v,
  NoDup gs -> (forall g, In g gs -> ~ In g v) ->
  fold_left (fun l g => remove_first g l) gs (v ++ gs) = v.
Proof.
  induction gs as [|g gs IH]; intros v Hd Hv; simpl.
  - apply app_nil_r.
  - rewrite remove_first_middle by (apply Hv; now left).
    inversion Hd; subst. apply IH; [assumption|].
    intros x Hx. apply Hv. now right.
Qed.

Lemma visited_refuse_all posts : forall st,
  visited (refuse_all st posts)
  = fold_left (fun l g => remove_first g l) (map guid posts) (visited st).
Proof.
  unfold refuse_all. induction posts as [|p posts IH]; intros st; simpl.
  - reflexivity.
  - rewrite IH, refuse_visited. reflexivity.
Qed.

(** Below the cap recording only appends. *)
Lemma record_posts_appends st posts :
  List.length (visited st) + List.length posts <= 500 ->
  visited (record_posts st posts) = visited st ++ map guid posts.
Proof.
  intros H. simpl. unfold last_n. rewrite length_app, length_map.
  replace (List.length (visited st) + List.length posts - 500) with 0 by lia.
  reflexivity.
Qed.

(** X7. Recording a batch and then refusing each of its posts gives the
    store back, when the identifiers of the batch are distinct and new to
    the store and the cap evicts nothing. *)
Theorem record_then_refuse (st : ScraperState) (posts : list Post) :
  NoDup (map guid posts) ->
  (forall post, In post posts -> ~ In (guid post) (visited st)) ->
  List.length (visited st) + List.length posts <= 500 ->
  refuse_all (record_posts st posts) posts = st.
Proof.
  intros Hd Hn Hl. apply state_eq.
  rewrite visited_refuse_all, record_posts_appends by exact Hl.
  apply forget_appended; [exact Hd|].
  intros g Hg. apply in_map_iff in Hg. destruct Hg as (p & <- & Hp). auto.
Qed.

Lemma record_then_refuse_witness :
  refuse_all (record_posts seen (numbered 0 3)) (numbered 0 3) = seen.
Proof.
  apply record_then_refuse.
  - apply distinct_NoDup. vm_compute. reflexivity.
  - intros post H. vm_compute in H.
    destruct H as [<- | [<- | [<- | []]]]; simpl;
      intros [H | []]; discriminate.
  - vm_compute. lia.
Defined.

End StoreMore.

(** ** Further properties of the feed client and of [new_posts] *)

Module PipelineMore.
Import PyStr Html BS4 Scraper Bot Notions Shapes HtmlFacts HtmlMore
       StoreFacts StoreMore.
Local Open Scope list_scope.

Lemma post_of_entry_ok e post : post_of_entry e = Ok post -> made_from post e.
Proof.
  unfold post_of_entry, made_from, item.
  destruct (e_id e), (e_title e), (e_link e), (e_summary e), (e_comments e);
    simpl; try discriminate.
  intros [= <-]. simpl. repeat split; reflexivity.
Qed.

Lemma post_of_entry_raises e x :
  post_of_entry e = Raise x -> x = KeyError /\ complete e = false.
Proof.
  unfold post_of_entry, complete, item.
  destruct (e_id e), (e_title e), (e_link e), (e_summary e), (e_comments e);
    simpl; try discriminate; intros [= <-]; split; reflexivity.
Qed.

Lemma for_each_ok {A B : Type} (f : A -> result B) l : forall ys,
  for_each f l = Ok ys -> Forall2 (fun y x => f x = Ok y) ys l.
Proof.
  induction l as [|x l IH]; simpl; intros ys.
  - intros [= <-]. constructor.
  - destruct (f x) as [y|] eqn:E; [|discriminate]. simpl.
    destruct (for_each f l) as [ys'|]; [|discriminate]. simpl.
    intros [= <-]. constructor; [exact E | apply IH; reflexivity].
Qed.

Lemma for_each_raises {A B : Type} (f : A -> result B) l e :
  for_each f l = Raise e -> exists x, In x l /\ f x = Raise e.
Proof.
  induction l as [|x l IH]; simpl; [discriminate|].
  destruct (f x) as [y|e1] eqn:E; simpl.
  - destruct (for_each f l) as [ys|e2]; simpl; [discriminate|].
    intros [= <-]. destruct (IH eq_refl) as (x' & Hin & Hx).
    exists x'. split; [now right | exact Hx].
  - intros [= <-]. exists x. split; [now left | exact E].
Qed.

(** The first exception ends the loop; when the body can raise only [e],
    one raising element is enough to know the outcome. *)
Lemma for_each_raises_only {A B : Type} (f : A -> result B) l e x :
  (forall y e', f y = Raise e' -> e' = e) ->
  In x l -> f x = Raise e -> for_each f l = Raise e.
Proof.
  intros Honly Hin Hx.
  destruct (for_each f l) as [ys|e'] eqn:E.
  - apply for_each_ok in E. exfalso. clear Honly.
    induction E as [|y x' ys l' Hy _ IH]; [destruct Hin|].
    destruct Hin as [-> | Hin]; [congruence | auto].
  - apply for_each_raises in E. destruct E as (y & _ & Hy).
    f_equal. eapply Honly. exact Hy.
Qed.

(** X8. [fetch_new_posts] returns only for a response with status 200
    whose body the feed parser accepts and whose items all have the five
    fields read; each post is then made from the item at the same place,
    without the key image.  It raises [HTTPFailed] exactly when the request
    raised or the status is not 200, [ParseFeedFailed] when the parser
    raised on the body of a 200 response, and [KeyError] when an item lacks
    a field. *)
Theorem fetch_new_posts_outcomes
    (response : result (nat * string))
    (feedparser_parse : string -> result (list Entry)) :
  match fetch_new_posts response feedparser_parse with
  | Ok posts =>
      exists body entries,
        response = Ok (200, body) /\ feedparser_parse body = Ok entries
        /\ Forall2 made_from posts entries
  | Raise e =>
      (e = HTTPFailed
       /\ ((exists e', response = Raise e')
           \/ (exists code body, response = Ok (code, body) /\ code <> 200)))
      \/ (e = ParseFeedFailed
          /\ exists body e',
               response = Ok (200, body) /\ feedparser_parse body = Raise e')
      \/ (e = KeyError
          /\ exists body entries,
               response = Ok (200, body)
               /\ feedparser_parse body = Ok entries
               /\ existsb (fun en => negb (complete en)) entries = true)
  end.
Proof.
  unfold fetch_new_posts.
  destruct response as [[code body]|e'].
  - destruct (Nat.eqb_spec code 200) as [-> | Hne]; simpl.
    + destruct (feedparser_parse body) as [entries|e'] eqn:P.
      * destruct (for_each post_of_entry entries) as [posts|e] eqn:F.
        -- exists body, entries. split; [reflexivity|]. split; [exact P|].
           apply for_each_ok in F. clear P.
           induction F; constructor; auto using post_of_entry_ok.
        -- right. right. apply for_each_raises in F.
           destruct F as (en & Hin & Hen).
           apply post_of_entry_raises in Hen. destruct Hen as [-> Hc].
           split; [reflexivity|]. exists body, entries.
           split; [reflexivity|]. split; [exact P|].
           apply existsb_exists. exists en. rewrite Hc. auto.
      * right. left. split; [reflexivity|]. exists body, e'. auto.
    + left. split; [reflexivity|]. right. exists code, body. auto.
  - left. split; [reflexivity|]. left. exists e'. reflexivity.
Qed.

Section NewPosts.

Variable parse_html : string -> soup.
Variable parse_minified : string -> soup.
Variable decode : soup -> string.

Local Notation clean :=
  (fun data =>
     d <- html_minify parse_minified decode (description data) ;;
     Ok (set_description data d)).

Lemma new_posts_state st posts r st1 :
  new_posts parse_html parse_minified decode st (Ok posts) = (r, st1) ->
  st1 = record_posts st (filter_posts st posts).
Proof.
  unfold new_posts. cbv beta iota zeta. intros H.
  injection H as _ H. symmetry. exact H.
Qed.

Lemma clean_ok data c :
  clean data = Ok c ->
  exists d, html_minify parse_minified decode (description data) = Ok d
            /\ c = set_description data d.
Proof.
  cbv beta.
  destruct (html_minify parse_minified decode (description data)) as [d|];
    simpl; [|discriminate].
  intros [= <-]. exists d. split; reflexivity.
Qed.

Lemma new_posts_cleaned st posts out st1 :
  new_posts parse_html parse_minified decode st (Ok posts) = (Ok out, st1) ->
  Forall2 (cleaned_from parse_html parse_minified decode)
          out (filter_posts st posts).
Proof.
  unfold new_posts.
  destruct (for_each clean (filter_posts st posts)) as [cleaned|] eqn:F;
    simpl; [|discriminate].
  intros [= <- _]. apply for_each_ok in F.
  induction F as [|c p cs ps Hc _ IH]; simpl; constructor; [|exact IH].
  destruct (clean_ok _ _ Hc) as (d & Hd & ->).
  unfold cleaned_from. simpl. repeat split. exact Hd.
Qed.

Lemma cleaned_guids out posts :
  Forall2 (cleaned_from parse_html parse_minified decode) out posts ->
  map guid out = map guid posts.
Proof.
  induction 1 as [|o p os ps H _ IH]; simpl; [reflexivity|].
  destruct H as (-> & _). rewrite IH. reflexivity.
Qed.

Lemma filter_posts_unseen st posts post :
  In post (filter_posts st posts) -> ~ In (guid post) (visited st).
Proof.
  unfold filter_posts. intros H. apply filter_In in H.
  destruct H as [_ H]. apply negb_true_iff in H.
  apply mem_false. exact H.
Qed.

(** X9. When [new_posts] returns, it returns the posts of the feed whose
    identifier is not in the store, in feed order and one for one: each
    keeps its identifier, title, link and comments link, carries the
    normalized description, and has the key image set to what [find_image]
    finds in the normalized description.  The store it leaves has recorded
    exactly these posts. *)
Theorem new_posts_returns st posts out st1 :
  new_posts parse_html parse_minified decode st (Ok posts) = (Ok out, st1) ->
  st1 = record_posts st (filter_posts st posts)
  /\ Forall2 (cleaned_from parse_html parse_minified decode)
             out (filter_posts st posts)
  /\ (forall o, In o out -> ~ In (guid o) (visited st)).
Proof.
  intros H. split; [eapply new_posts_state; exact H|].
  pose proof (new_posts_cleaned _ _ _ _ H) as C. split; [exact C|].
  intros o Ho. apply (in_map guid) in Ho.
  rewrite (cleaned_guids _ _ C) in Ho. apply in_map_iff in Ho.
  destruct Ho as (p & <- & Hp). eapply filter_posts_unseen. exact Hp.
Qed.

Lemma clean_raises_only data e : clean data = Raise e -> e = IndexError.
Proof.
  cbv beta. unfold html_minify, minified.
  destruct (rewrite_loop decode _ _) as [out|e1] eqn:E; simpl;
    [discriminate|].
  intros [= <-]. eapply rewrite_loop_exn. exact E.
Qed.

(** The store is recorded before the descriptions are cleaned: one
    description with an empty list item makes [new_posts] raise, with the
    whole batch already in the store. *)
Lemma new_posts_unclean st posts bad :
  In bad (filter_posts st posts) ->
  description bad <> EmptyString ->
  existsb has_empty_li (parse_minified (description bad)) = true ->
  new_posts parse_html parse_minified decode st (Ok posts)
  = (Raise IndexError, record_posts st (filter_posts st posts)).
Proof.
  intros Hin Hne Hli. unfold new_posts.
  rewrite (for_each_raises_only clean (filter_posts st posts) IndexError bad);
    [reflexivity | apply clean_raises_only | exact Hin |].
  unfold html_minify, minified.
  destruct (length_nonempty _ Hne) as [n ->]. simpl.
  rewrite (pass_empty_li _ Hli). reflexivity.
Qed.

Lemma filter_posts_recorded st posts :
  List.length (visited st) + List.length (filter_posts st posts) <= 500 ->
  filter_posts (record_posts st (filter_posts st posts)) posts = [].
Proof.
  intros Hl. apply filter_posts_none. intros p Hp.
  rewrite record_posts_appends by exact Hl. apply in_or_app.
  destruct (mem (guid p) (visited st)) eqn:M.
  - left. apply mem_In. exact M.
  - right. apply in_map. unfold filter_posts. apply filter_In.
    split; [exact Hp | rewrite M; reflexivity].
Qed.

(** X11. Polling the same feed again yields nothing: after [new_posts]
    ran on a feed, whether it returned or raised while cleaning, a second
    run on the same feed returns the empty list and leaves the store as it
    is, provided the cap evicted nothing in the first run. *)
Theorem new_posts_again st posts r st1 :
  new_posts parse_html parse_minified decode st (Ok posts) = (r, st1) ->
  List.length (visited st) + List.length (filter_posts st posts) <= 500 ->
  new_posts parse_html parse_minified decode st1 (Ok posts) = (Ok [], st1).
Proof.
  intros H Hl. apply new_posts_state in H. subst st1.
  unfold new_posts at 1. rewrite (filter_posts_recorded _ _ Hl). simpl.
  rewrite record_posts_nil by apply record_posts_bound. reflexivity.
Qed.

End NewPosts.

Lemma new_posts_returns_witness :
  exists out,
    Forall2 (cleaned_from bs_parse bs_parse bs_decode) out
            (filter_posts {| visited := ["a"] |}
               [described "x"; plain_post "a"; plain_post "b"])
    /\ map guid out = ["g"; "b"].
Proof.
  destruct (new_posts_returns bs_parse bs_parse bs_decode
              {| visited := ["a"] |}
              [described "x"; plain_post "a"; plain_post "b"] _ _ eq_refl)
    as (_ & C & _).
  eexists. split; [exact C | reflexivity].
Defined.

Lemma new_posts_again_witness :
  new_posts bs_parse bs_parse bs_decode
            {| visited := ["a"; "g"; "b"] |}
            (Ok [described "x"; plain_post "a"; plain_post "b"])
  = (Ok [], {| visited := ["a"; "g"; "b"] |}).
Proof.
  apply (new_posts_again bs_parse bs_parse bs_decode
           {| visited := ["a"] |}
           [described "x"; plain_post "a"; plain_post "b"]
           (Ok [set_image (described "x") None;
                set_image (plain_post "b") None])).
  - reflexivity.
  - vm_compute. lia.
Defined.

End PipelineMore.

(** ** Further properties of delivery and of the tick *)

Module TickMore.
Import PyStr Html BS4 Scraper Bot Notions Shapes HtmlFacts StoreFacts
       TickFacts StoreMore PipelineMore.
Local Open Scope list_scope.

Lemma remove_first_subset x g l : In x (remove_first g l) -> In x l.
Proof.
  induction l as [|y l IH]; simpl; [intros []|].
  destruct (y =? g); simpl.
  - intros H. now right.
  - intros [H | H]; [now left | right; apply IH; exact H].
Qed.

Lemma remove_first_length g l :
  List.length (remove_first g l) <= List.length l.
Proof.
  induction l as [|y l IH]; simpl; [lia|].
  destruct (y =? g); simpl; lia.
Qed.

Lemma forget_subset x gs : forall v,
  In x (fold_left (fun l g => remove_first g l) gs v) -> In x v.
Proof.
  induction gs as [|g gs IH]; intros v; simpl; [auto|].
  intros H. eapply remove_first_subset. apply IH. exact H.
Qed.

Lemma forget_length gs : forall v,
  List.length (fold_left (fun l g => remove_first g l) gs v)
  <= List.length v.
Proof.
  induction gs as [|g gs IH]; intros v; simpl; [lia|].
  etransitivity; [apply IH | apply remove_first_length].
Qed.

Section Runs.

Variable parse_html : string -> soup.
Variable parse_minified : string -> soup.
Variable decode : soup -> string.
Variable feed_response : list call -> result (nat * string).
Variable feedparser_parse : string -> result (list Entry).
Variable image_response : list call -> string -> result string.
Variable bot_accepts : list call -> call -> bool.
Variable feed_url : string.
Variable chat_id : string.

Local Notation send_post' := (send_post image_response bot_accepts chat_id).
Local Notation send_all' := (send_all image_response bot_accepts chat_id).
Local Notation outcomes' := (outcomes image_response bot_accepts chat_id).
Local Notation new_posts' := (new_posts parse_html parse_minified decode).
Local Notation fetched' log :=
  (fetch_new_posts (feed_response log) feedparser_parse).
Local Notation tick' :=
  (tick parse_html parse_minified decode feed_response feedparser_parse
        image_response bot_accepts feed_url chat_id).
Local Notation forget := (fun l g => remove_first g l).

(** X16. One call of [send_post] hands at most one message to the
    channel, and exactly one, carrying the template filled with the title
    and description of the post, when it returns [True].  With the key image
    the first call made is the request for the image; without it the only
    call is the text message with the link preview off. *)
Theorem send_post_one_message (log : list call) (post : Post) :
  exists ext,
    fst (send_post image_response bot_accepts chat_id log post) = log ++ ext
    /\ List.length (filter is_send ext) <= 1
    /\ (snd (send_post image_response bot_accepts chat_id log post) = true ->
        exists c, filter is_send ext = [c]
                  /\ delivers chat_id post c = true)
    /\ match image post with
       | Some img => exists rest, ext = ImageGet img :: rest
       | None => ext = [text_only chat_id post]
       end.
Proof.
  unfold send_post. destruct (image post) as [img|].
  - destruct (fetch_image image_response log img) as [content|e].
    + exists [ImageGet img;
              SendMediaGroup chat_id content
                (html_message (title post) (description post))].
      cbn [fst snd]. rewrite <- app_assoc.
      split; [reflexivity|]. split; [simpl; lia|]. split.
      * intros _. eexists. split; [reflexivity|].
        simpl. rewrite !String.eqb_refl. reflexivity.
      * eexists. reflexivity.
    + exists [ImageGet img]. cbn [fst snd].
      split; [reflexivity|]. split; [simpl; lia|]. split; [discriminate|].
      exists []. reflexivity.
  - exists [text_only chat_id post]. cbn [fst snd].
    split; [reflexivity|]. split; [simpl; lia|]. split.
    + intros _. eexists. split; [reflexivity|].
      simpl. rewrite !String.eqb_refl. reflexivity.
    + reflexivity.
Qed.

(** The loop of the tick, as far as the store and the announcements go. *)
Lemma send_all_run posts : forall log st log2 st2,
  send_all' log st posts = (log2, st2) ->
  sent_guids log2 = sent_guids log ++ map guid posts
  /\ visited st2
     = fold_left forget (failed_guids (outcomes' log posts)) (visited st)
  /\ map fst (outcomes' log posts) = posts.
Proof.
  induction posts as [|p rest IH]; intros log st log2 st2; simpl.
  - intros [= <- <-]. rewrite app_nil_r. repeat split.
  - destruct (send_post_calls image_response bot_accepts chat_id
                (log ++ [LogSending (guid p)]) p) as (ext & E1 & E2 & _).
    destruct (send_post' (log ++ [LogSending (guid p)]) p) as [log1 r].
    simpl in E1. subst log1. intros H.
    destruct (IH _ _ _ _ H) as (S1 & S2 & S3).
    split; [|split].
    + rewrite S1, !sent_guids_app, E2, app_nil_r, <- app_assoc. reflexivity.
    + rewrite S2, failed_guids_cons. destruct r; [reflexivity|].
      simpl. rewrite refuse_visited. reflexivity.
    + simpl. rewrite S3. reflexivity.
Qed.

Lemma failed_guids_all rs :
  Forall (fun r => snd r = false) rs ->
  failed_guids rs = map guid (map fst rs).
Proof.
  unfold failed_guids. induction 1 as [|r rs Hr _ IH]; simpl; [reflexivity|].
  rewrite Hr. simpl. rewrite IH. reflexivity.
Qed.

(** What a tick does, by the outcome of [new_posts]. *)
Lemma tick_cases log st :
  (exists e st1,
      new_posts' st (fetched' log) = (Raise e, st1)
      /\ tick' log st = (log ++ [FeedGet feed_url], st1))
  \/ (exists out st1 log2 st2,
        new_posts' st (fetched' log) = (Ok out, st1)
        /\ send_all' (log ++ [FeedGet feed_url]) st1 out = (log2, st2)
        /\ tick' log st = (log2 ++ [SaveState "scraper.json" st2], st2)).
Proof.
  unfold tick.
  destruct (new_posts' st (fetched' log)) as [[out|e] st1] eqn:N.
  - right.
    destruct (send_all' (log ++ [FeedGet feed_url]) st1 out)
      as [log2 st2] eqn:S.
    exists out, st1, log2, st2. repeat split; try reflexivity. exact S.
  - left. exists e, st1. split; reflexivity.
Qed.

Lemma new_posts_fetch_raises st e e' st1 :
  new_posts' st (Raise e) = (Raise e', st1) -> st1 = st.
Proof. unfold new_posts. intros H. injection H as _ H. symmetry. exact H. Qed.

(** X10. A batch with one unclean description is lost whole: when the
    description of a new post is non-empty and parses to a tree with an
    [li] element without children, [new_posts] raises after it has recorded
    the batch, and the tick ends there: no post of the batch is sent,
    the good ones included, the state file is not written, and the store in
    memory holds the whole batch as seen. *)
Theorem tick_unclean_batch log st posts bad :
  fetch_new_posts (feed_response log) feedparser_parse = Ok posts ->
  In bad (filter_posts st posts) ->
  description bad <> EmptyString ->
  existsb has_empty_li (parse_minified (description bad)) = true ->
  new_posts parse_html parse_minified decode st (Ok posts)
  = (Raise IndexError, record_posts st (filter_posts st posts))
  /\ tick parse_html parse_minified decode feed_response feedparser_parse
          image_response bot_accepts feed_url chat_id log st
     = (log ++ [FeedGet feed_url], record_posts st (filter_posts st posts)).
Proof.
  intros F Hin Hne Hli.
  pose proof (new_posts_unclean parse_html parse_minified decode
                st posts bad Hin Hne Hli) as N.
  split; [exact N|]. unfold tick. rewrite F, N. reflexivity.
Qed.

(** X12. A tick announces and attempts only posts of the fetched feed
    whose identifier is not in the store when the tick starts. *)
Theorem tick_sends_only_new log st g :
  In g (sent_guids
          (fst (tick parse_html parse_minified decode feed_response
                     feedparser_parse image_response bot_accepts
                     feed_url chat_id log st))) ->
  In g (sent_guids log)
  \/ (~ In g (visited st)
      /\ exists posts,
           fetch_new_posts (feed_response log) feedparser_parse = Ok posts
           /\ In g (map guid posts)).
Proof.
  destruct (tick_cases log st)
    as [(e & st1 & N & ->) | (out & st1 & log2 & st2 & N & S & ->)]; simpl.
  - rewrite sent_guids_app. simpl. rewrite app_nil_r. auto.
  - destruct (send_all_run _ _ _ _ _ S) as (S1 & _ & _).
    rewrite !sent_guids_app, S1, sent_guids_app. simpl.
    rewrite !app_nil_r. intros H. apply in_app_or in H.
    destruct H as [H | H]; [now left | right].
    destruct (fetched' log) as [posts|e] eqn:F; [|discriminate].
    pose proof (new_posts_cleaned _ _ _ _ _ _ _ N) as C.
    rewrite (cleaned_guids _ _ _ _ _ C) in H.
    apply in_map_iff in H. destruct H as (p & <- & Hp). split.
    + eapply filter_posts_unseen. exact Hp.
    + exists posts. split; [reflexivity|]. apply in_map.
      unfold filter_posts in Hp. apply filter_In in Hp. exact (proj1 Hp).
Qed.

Lemma cleaned_length out posts :
  Forall2 (cleaned_from parse_html parse_minified decode) out posts ->
  List.length out = List.length posts.
Proof. induction 1; simpl; congruence. Qed.

(** X13. A tick in which every delivery fails leaves the store as it
    found it, and writes that store to the state file, when the new posts
    have distinct identifiers and the cap evicts nothing: the same posts
    are new again at the next tick. *)
Theorem tick_all_failed_restores log st out st1 :
  new_posts parse_html parse_minified decode st
            (fetch_new_posts (feed_response log) feedparser_parse)
  = (Ok out, st1) ->
  Forall (fun r => snd r = false)
         (outcomes image_response bot_accepts chat_id
                   (log ++ [FeedGet feed_url]) out) ->
  NoDup (map guid out) ->
  List.length (visited st) + List.length out <= 500 ->
  exists calls,
    tick parse_html parse_minified decode feed_response feedparser_parse
         image_response bot_accepts feed_url chat_id log st
    = (calls ++ [SaveState "scraper.json" st], st).
Proof.
  intros N Hf Hd Hl. unfold tick. rewrite N.
  destruct (send_all' (log ++ [FeedGet feed_url]) st1 out)
    as [log2 st2] eqn:S.
  destruct (send_all_run _ _ _ _ _ S) as (_ & S2 & S3).
  destruct (fetched' log) as [posts|e] eqn:F; [|discriminate].
  pose proof (new_posts_cleaned _ _ _ _ _ _ _ N) as C.
  pose proof (cleaned_guids _ _ _ _ _ C) as G.
  pose proof (cleaned_length _ _ C) as L.
  apply new_posts_state in N.
  assert (E : st2 = st).
  { apply state_eq. rewrite S2, (failed_guids_all _ Hf), S3. subst st1.
    rewrite record_posts_appends by lia. rewrite <- G.
    apply forget_appended; [exact Hd|].
    intros g Hg. rewrite G in Hg. apply in_map_iff in Hg.
    destruct Hg as (p & <- & Hp). eapply filter_posts_unseen. exact Hp. }
  subst st2. exists log2. reflexivity.
Qed.

(** X14. After a tick whose fetch succeeded the store holds at most 500
    identifiers, whatever it held before and whatever the deliveries did. *)
Theorem tick_store_bound log st posts :
  fetch_new_posts (feed_response log) feedparser_parse = Ok posts ->
  List.length
    (visited (snd (tick parse_html parse_minified decode feed_response
                        feedparser_parse image_response bot_accepts
                        feed_url chat_id log st)))
  <= 500.
Proof.
  intros F.
  destruct (tick_cases log st)
    as [(e & st1 & N & ->) | (out & st1 & log2 & st2 & N & S & ->)];
    rewrite F in N; apply new_posts_state in N; subst st1; simpl snd.
  - apply record_posts_bound.
  - destruct (send_all_run _ _ _ _ _ S) as (_ & S2 & _). rewrite S2.
    etransitivity; [apply forget_length | apply record_posts_bound].
Qed.

Lemma last_n_subset {A : Type} n (l : list A) x : In x (last_n n l) -> In x l.
Proof.
  intros H. destruct (last_n_suffix n l) as [dropped E].
  rewrite E. apply in_or_app. now right.
Qed.

(** X15. A tick puts nothing into the store but identifiers of the
    fetched feed: an identifier in the store after the tick was in the
    store before it or is the identifier of a fetched post. *)
Theorem tick_store_provenance log st x :
  In x (visited (snd (tick parse_html parse_minified decode feed_response
                           feedparser_parse image_response bot_accepts
                           feed_url chat_id log st))) ->
  In x (visited st)
  \/ exists posts,
       fetch_new_posts (feed_response log) feedparser_parse = Ok posts
       /\ In x (map guid posts).
Proof.
  assert (R : forall posts,
             In x (visited (record_posts st (filter_posts st posts))) ->
             In x (visited st) \/ In x (map guid posts)).
  { intros posts H. simpl in H. apply last_n_subset in H.
    apply in_app_or in H. destruct H as [H | H]; [now left | right].
    apply in_map_iff in H. destruct H as (p & <- & Hp).
    apply in_map. unfold filter_posts in Hp.
    apply filter_In in Hp. exact (proj1 Hp). }
  destruct (tick_cases log st)
    as [(e & st1 & N & ->) | (out & st1 & log2 & st2 & N & S & ->)];
    simpl snd; destruct (fetched' log) as [posts|e'] eqn:F.
  - apply new_posts_state in N. subst st1. intros H.
    destruct (R posts H) as [H1 | H1]; [now left | right].
    exists posts. split; [reflexivity | exact H1].
  - apply new_posts_fetch_raises in N. subst st1. intros H. now left.
  - apply new_posts_state in N. subst st1.
    destruct (send_all_run _ _ _ _ _ S) as (_ & S2 & _). rewrite S2.
    intros H. apply forget_subset in H.
    destruct (R posts H) as [H1 | H1]; [now left | right].
    exists posts. split; [reflexivity | exact H1].
  - discriminate.
Qed.

End Runs.

(** *** Sample runs *)

Lemma send_post_one_message_witness :
  exists c,
    delivers "chat"
             (set_image (plain_post "p") (Some "http://imgur.com/p")) c
    = true.
Proof.
  destruct (send_post_one_message image_ok accepts_all "chat" []
              (set_image (plain_post "p") (Some "http://imgur.com/p")))
    as (ext & _ & _ & H & _).
  destruct (H eq_refl) as (c & _ & Hc). exists c. exact Hc.
Defined.

Lemma tick_unclean_batch_witness :
  tick bs_parse bs_parse bs_decode feed_up poisoned_entries image_ok
       accepts_all "feed" "chat" [] seen
  = ([FeedGet "feed"], {| visited := ["old"; "a"; "b"] |}).
Proof.
  apply (proj2 (tick_unclean_batch bs_parse bs_parse bs_decode feed_up
                  poisoned_entries image_ok accepts_all "feed" "chat" [] seen
                  _
                  (set_description (plain_post "b") "<ul><li></li></ul>")
                  eq_refl
                  (or_intror (or_introl eq_refl))
                  ltac:(discriminate) eq_refl)).
Defined.

Lemma tick_sends_only_new_witness :
  sent_guids
    (fst (tick bs_parse bs_parse bs_decode feed_up two_entries image_ok
               accepts_all "feed" "chat" [] {| visited := ["a"] |}))
    = ["b"]
  /\ ~ In "b" ["a"].
Proof.
  split; [reflexivity|].
  destruct (tick_sends_only_new bs_parse bs_parse bs_decode feed_up
              two_entries image_ok accepts_all "feed" "chat" []
              {| visited := ["a"] |} "b" (or_introl eq_refl))
    as [[] | [H _]].
  exact H.
Defined.

Lemma tick_all_failed_restores_witness :
  exists calls,
    tick bs_parse bs_parse bs_decode feed_up plain_entries image_ok
         accepts_all "feed" "chat" [] seen
    = (calls ++ [SaveState "scraper.json" seen], seen).
Proof.
  apply (tick_all_failed_restores bs_parse bs_parse bs_decode feed_up
           plain_entries image_ok accepts_all "feed" "chat" [] seen
           [set_image (set_description (plain_post "a") "first") None;
            set_image (set_description (plain_post "b") "second") None]
           {| visited := ["old"; "a"; "b"] |}).
  - reflexivity.
  - repeat constructor.
  - apply distinct_NoDup. reflexivity.
  - simpl. lia.
Defined.

Lemma tick_store_bound_witness :
  List.length
    (visited (snd (tick bs_parse bs_parse bs_decode feed_up two_entries
                        image_ok accepts_all "feed" "chat" [] seen)))
  <= 500.
Proof.
  apply (tick_store_bound bs_parse bs_parse bs_decode feed_up two_entries
           image_ok accepts_all "feed" "chat" [] seen
           [set_description (plain_post "a")
              "<a href='http://imgur.com/a'>A</a>";
            set_description (plain_post "b")
              "<a href='http://imgur.com/b'>B</a>"]).
  reflexivity.
Defined.

Lemma tick_store_provenance_witness :
  visited (snd (tick bs_parse bs_parse bs_decode feed_up two_entries
                     image_ok accepts_all "feed" "chat" [] seen))
    = ["old"; "a"; "b"]
  /\ (In "b" (visited seen)
      \/ exists posts,
           fetch_new_posts (feed_up []) two_entries = Ok posts
           /\ In "b" (map guid posts)).
Proof.
  split; [reflexivity|].
  apply (tick_store_provenance bs_parse bs_parse bs_decode feed_up
           two_entries image_ok accepts_all "feed" "chat" [] seen "b").
  simpl. auto.
Defined.

End TickMore.

(** ** Idempotence, preserved elements and paragraphs *)

Module HtmlRevised.
Import PyStr Html BS4 Notions Shapes HtmlFacts HtmlMore.
Local Open Scope list_scope.

(** *** Paragraphs *)











Lemma starts_blank_app b r :
  b <> EmptyString -> starts_blank (b ++ r)%string = starts_blank b.
Proof. destruct b; [congruence | reflexivity]. Qed.






(** *** Preserved elements *)

Lemma survives_refl x : survives x x.
Proof. split; auto. Qed.

Lemma survives_trans x y z : survives x y -> survives y z -> survives x z.
Proof.
  intros [H1 H2] [H3 H4]. split; [congruence|]. intros t Ht. auto.
Qed.

Lemma Forall2_survives_refl l : Forall2 survives l l.
Proof. induction l; constructor; auto using survives_refl. Qed.

Lemma Forall2_survives_trans l1 : forall l2 l3,
  Forall2 survives l1 l2 -> Forall2 survives l2 l3 -> Forall2 survives l1 l3.
Proof.
  induction l1 as [|x l1 IH]; intros l2 l3 H12 H23.
  - inversion H12; subst. inversion H23; subst. constructor.
  - inversion H12; subst. inversion H23; subst.
    constructor; [eapply survives_trans; eassumption | eapply IH; eassumption].
Qed.

Lemma preserved_at_tag nm a ch :
  preserved_at (Tag nm a ch) =
    if mem nm flattened then []
    else (if mem nm preserved
          then [(nm, a,
                 if forallb flat_free ch then Some (text_of ch) else None)]
          else [])
         ++ flat_map preserved_at ch.
Proof. reflexivity. Qed.

Lemma survive_pass_list ch :
  Forall (fun n => forall n', pass_node n = Ok n' ->
            Forall2 survives (preserved_at n) (preserved_at n')) ch ->
  forall ch', pass ch = Ok ch' ->
    Forall2 survives (flat_map preserved_at ch) (flat_map preserved_at ch').
Proof.
  induction 1 as [|c r Hc _ IH]; intros ch'.
  - intros [= <-]. constructor.
  - rewrite pass_cons.
    destruct (pass r) as [r'|] eqn:Er; [|discriminate]. simpl.
    destruct (pass_node c) as [c'|] eqn:Ec; [|discriminate]. simpl.
    intros [= <-]. simpl. apply Forall2_app; auto.
Qed.

(** A pass keeps the preserved elements outside [br], [p] and [li], one
    for one. *)
Lemma survive_pass_node n :
  forall n', pass_node n = Ok n' ->
             Forall2 survives (preserved_at n) (preserved_at n').
Proof.
  induction n as [s | nm a ch IH] using node_induction; intros n'.
  - intros [= <-]. constructor.
  - rewrite pass_node_tag.
    destruct (pass ch) as [ch'|] eqn:E; [|discriminate]. simpl bind.
    pose proof (survive_pass_list ch IH ch' E) as Hl.
    rewrite preserved_at_tag.
    destruct (mem nm flattened) eqn:Hf.
    + unfold visit. unfold mem, flattened in Hf. simpl in Hf.
      destruct (nm =? "br"); [intros [= <-]; constructor|].
      destruct (nm =? "p"); [intros [= <-]; constructor|].
      destruct (nm =? "li"); [|discriminate].
      destruct ch'; [discriminate | intros [= <-]; constructor].
    + rewrite (visit_not_flattened _ _ _ Hf).
      destruct (mem nm preserved) eqn:Hp.
      * intros [= <-]. rewrite preserved_at_tag, Hf, Hp.
        apply Forall2_app; [|exact Hl].
        constructor; [|constructor]. split; [reflexivity|].
        cbn [snd]. intros t.
        destruct (forallb flat_free ch) eqn:Hff; [|discriminate].
        intros [= <-].
        destruct (pass_flat_free ch Hff) as (ch2 & E2 & T & F).
        rewrite E in E2. injection E2 as <-. rewrite F, T. reflexivity.
      * cbn [app]. destruct ch' as [|c0 [|c1 r]]; intros [= <-].
        -- exact Hl.
        -- simpl in Hl. rewrite app_nil_r in Hl. exact Hl.
        -- rewrite preserved_at_tag, Hf, Hp. exact Hl.
Qed.

Lemma survive_pass doc doc' :
  pass doc = Ok doc' ->
  Forall2 survives (flat_map preserved_at doc) (flat_map preserved_at doc').
Proof.
  apply survive_pass_list. apply Forall_forall.
  intros n _. apply survive_pass_node.
Qed.

Lemma survive_rewrite_loop decode n : forall doc out,
  rewrite_loop decode n doc = Ok out ->
  Forall2 survives (flat_map preserved_at doc) (flat_map preserved_at out).
Proof.
  induction n as [|n IH]; simpl; intros doc out.
  - intros [= <-]. apply Forall2_survives_refl.
  - destruct (pass doc) as [doc'|] eqn:E; [|discriminate]. simpl.
    pose proof (survive_pass _ _ E) as H1.
    destruct (_ =? _)%nat.
    + intros [= <-]. exact H1.
    + intros H. eapply Forall2_survives_trans; [exact H1 | apply IH; exact H].
Qed.

(** C8, refuted as stated: the [b] element inside the paragraph does not
    survive; the [b] element that holds a [br] survives with another text;
    and next to a list item without children nothing survives, the
    normalizer raises. *)
Lemma preserved_tag_not_kept :
  (find_all "b" (bs_parse hello) = [Tag "b" [] [Text "world"]]
   /\ minified bs_parse bs_decode hello = Ok [Text (LF ++ "Hello world")]
   /\ find_all "b" [Text (LF ++ "Hello world")] = [])
  /\ (bs_parse broken_bold
        = [Tag "b" [] [Text "a"; Tag "br" [] []; Text "b"]]
      /\ text_of [Text "a"; Tag "br" [] []; Text "b"] = "ab"
      /\ minified bs_parse bs_decode broken_bold
         = Ok [Tag "b" [] [Text "a"; Text LF; Text "b"]]
      /\ text_of [Text "a"; Text LF; Text "b"] = ("a" ++ LF ++ "b")%string)
  /\ (bs_parse bold_then_item = [Tag "b" [] [Text "x"]; Tag "li" [] []]
      /\ html_minify bs_parse bs_decode bold_then_item = Raise IndexError).
Proof. repeat split; reflexivity. Qed.

(** C8, amended. On a document in whose parsed tree no [li] element is
    without children the normalizer returns, and the [a], [b], [strong],
    [i] and [em] elements of the parsed tree that are not inside a [br],
    [p] or [li] element are, one for one and in document order, such
    elements of the tree that is serialized, at whatever depth they were:
    each keeps its name and attributes, and its text as well when it
    contains no [br], [p] or [li] element. *)
Theorem preserved_tags_survive
    (parse : string -> soup) (decode : soup -> string) (html_doc : string) :
  existsb has_empty_li (parse html_doc) = false ->
  exists out,
    minified parse decode html_doc = Ok out
    /\ html_minify parse decode html_doc = Ok (decode out)
    /\ Forall2 survives (flat_map preserved_at (parse html_doc))
                        (flat_map preserved_at out).
Proof.
  intros H. destruct (minified_returns parse decode html_doc H) as [out E].
  exists out. split; [exact E|]. split.
  - unfold html_minify. rewrite E. reflexivity.
  - eapply survive_rewrite_loop. exact E.
Qed.

Lemma preserved_tags_survive_witness :
  flat_map preserved_at (bs_parse twin_bolds)
    = [("b", [], Some "x"); ("b", [], Some "x");
       ("a", [("href", "u")], Some "t"); ("em", [], Some "t");
       ("i", [], None)]
  /\ exists out,
       html_minify bs_parse bs_decode twin_bolds = Ok (bs_decode out)
       /\ Forall2 survives (flat_map preserved_at (bs_parse twin_bolds))
                           (flat_map preserved_at out).
Proof.
  split; [reflexivity|].
  destruct (preserved_tags_survive bs_parse bs_decode twin_bolds eq_refl)
    as (out & _ & H1 & H2).
  exists out. split; assumption.
Defined.

(** *** Idempotence *)

Lemma rewrite_loop_first decode n doc :
  rewrite_loop decode (S n) doc = pass doc.
Proof.
  simpl. destruct (pass doc) as [doc'|e] eqn:P; simpl; [|reflexivity].
  destruct (_ =? _)%nat; [reflexivity|].
  apply rewrite_loop_stable, settled_fixed. eapply pass_settled. exact P.
Qed.

(** C4, amended. When the parser reads the output of the normalizer back
    as the tree that was serialized, adjacent strings joined and empty
    strings dropped, and every element of that tree outside the preserved
    vocabulary still has two children or more, normalizing the output
    gives the output again; and for a non-empty output the second
    normalization leaves the tree it read unchanged in that case only. *)
Theorem html_minify_idempotent_when_settled
    (parse : string -> soup) (decode : soup -> string)
    (html_doc : string) (out : soup) :
  minified parse decode html_doc = Ok out ->
  parse (decode out) = join out ->
  decode (join out) = decode out ->
  (forallb settled (join out) = true ->
   html_minify parse decode html_doc = Ok (decode out)
   /\ html_minify parse decode (decode out) = Ok (decode out))
  /\ (decode out <> EmptyString ->
      (minified parse decode (decode out) = Ok (join out)
       <-> forallb settled (join out) = true)).
Proof.
  intros Hm Hr Hd. split.
  - intros S. unfold html_minify. rewrite Hm. split; [reflexivity|].
    unfold minified.
    rewrite Hr, (rewrite_loop_stable decode _ _ (settled_fixed _ S)).
    simpl. rewrite Hd. reflexivity.
  - intros Hne. unfold minified. rewrite Hr.
    destruct (length_nonempty _ Hne) as [n ->].
    rewrite rewrite_loop_first. split.
    + apply pass_settled.
    + apply settled_fixed.
Qed.

Lemma html_minify_idempotent_when_settled_witness :
  minified bs_parse bs_decode two_runs = Ok [Text "a"; Text "b"]
  /\ bs_parse "ab" = join [Text "a"; Text "b"]
  /\ html_minify bs_parse bs_decode two_runs = Ok "ab"
  /\ html_minify bs_parse bs_decode "ab" = Ok "ab".
Proof.
  split; [reflexivity|]. split; [reflexivity|].
  exact (proj1 (html_minify_idempotent_when_settled bs_parse bs_decode
                  two_runs [Text "a"; Text "b"] eq_refl eq_refl eq_refl)
           eq_refl).
Defined.

End HtmlRevised.
